(** * colcon-core: package descriptors, the dependency walker and the
      console start/end event handler

    A shallow embedding of

    - [colcon_core/package_descriptor.py]
      ([PackageDescriptor], [DependencyWalker]) and
    - [colcon_core/event_handler/console_start_end.py]
      ([ConsoleStartEndEventHandler]),

    followed by the properties the specification states about them. *)

From stdpp Require Import gmap strings list fin_maps sorting pretty.

Local Open Scope string_scope.
Local Open Scope list_scope.

(** ** Python values and library functions used by the code *)

(** What the code takes from the Python runtime and its standard library:
    [pathlib.Path] (construction from a string, [str()], [==]),
    [os.path.realpath], the built-in [hash] of a [(type, name)] tuple,
    the wall clock ([time.time()], float subtraction, the [.2f] format).
    They are an interface; the code is modelled over any implementation. *)
Class Runtime := {
  Path : Type;
  Path_eq_dec :: EqDecision Path;
  Path_new : string → Path;
  Path_str : Path → string;
  realpath : string → string;
  hash : option string * option string → Z;
  Time : Type;
  time_sub : Time → Time → Time;
  format_2f : Time → string;
}.

(** A value as the slot [path] can hold it and as
    [return self.path and self.type and self.name] can produce it:
    [None], a [str] or a [Path]. *)
Inductive pyval `{Runtime} :=
  | VNone
  | VStr (s : string)
  | VPath (p : Path).

(** [==] on these values: two paths as [Path.__eq__] has them, two
    strings by their text, [None] with itself, and values of different
    kinds are unequal. *)
#[global] Instance pyval_eq_dec `{Runtime} : EqDecision pyval.
Proof. solve_decision. Defined.

(** [str(v)] *)
Definition value_str `{Runtime} (v : pyval) : string :=
  match v with
  | VNone => "None"
  | VStr s => s
  | VPath p => Path_str p
  end.

(** Python truthiness: [None] and the empty string are falsy; a [Path]
    defines neither [__bool__] nor [__len__], so every [Path] is truthy. *)
Definition truthy `{Runtime} (v : pyval) : bool :=
  match v with
  | VNone => false
  | VStr s => negb (String.eqb s "")
  | VPath _ => true
  end.

(** [a and b]: [a] when [a] is falsy, else [b]. *)
Definition py_and `{Runtime} (a b : pyval) : pyval :=
  if truthy a then b else a.

(** A [str]-or-[None] attribute as a value. *)
Definition of_opt `{Runtime} (o : option string) : pyval :=
  match o with None => VNone | Some s => VStr s end.

(** [sorted] on strings: Python orders [str] by code points, which is the
    order of [String.leb]. *)
Definition str_le (s1 s2 : string) : Prop := String.leb s1 s2 = true.

#[global] Instance str_le_dec : RelDecision str_le.
Proof. intros s1 s2. unfold str_le. apply _. Defined.

Definition sorted (l : list string) : list string := merge_sort str_le l.

(** ** Dependency descriptors *)

Abbreviation meta := (gmap string string).

(** Modelled from the spec: [colcon_core.dependency_descriptor] is not
    among the sources.  A dependency descriptor has a [name] and optional
    [metadata] (empty when omitted); it is equal to, and hashes like, its
    name, whatever the metadata, and so also to a bare [str] of that
    name. *)
Record DependencyDescriptor := {
  dep_name : string;
  dep_metadata : meta;
}.

(** An entry of a category's set: a bare [str] or a typed descriptor.
    Both compare by name, so the name is kept apart as the key of the set
    (below) and an entry is what remains. *)
Inductive entry :=
  | bare
  | typed (md : meta).

(** A Python [set] holds one element of each equality class, and [add],
    [update] and [|=] never replace an element that is already there.
    Elements here compare by name: a set of entries is a finite map from
    the name to the entry kept for it, [set.update] is the left-biased
    union [∪] of maps, and a [set] of [DependencyDescriptor] is a map from
    the name to the metadata of the descriptor kept. *)
Abbreviation entry_set := (gmap string entry).
Abbreviation dep_set := (gmap string meta).

(** [DependencyDescriptor(d) if not isinstance(d, DependencyDescriptor)
    else d], on the part of [d] that is not its name. *)
Definition coerce (e : entry) : meta :=
  match e with
  | bare => ∅
  | typed md => md
  end.

(** [s.add(d)] *)
Definition set_add (d : DependencyDescriptor) (s : dep_set) : dep_set :=
  match s !! dep_name d with
  | Some _ => s
  | None => <[dep_name d := dep_metadata d]> s
  end.

(** The elements of a set, as iterating over it yields them.  Python leaves
    the order open; the model takes the map's own order. *)
Definition elements_of (s : dep_set) : list DependencyDescriptor :=
  (λ p, {| dep_name := p.1; dep_metadata := p.2 |}) <$> map_to_list s.

(** ** Package descriptors *)

Inductive result (A : Type) :=
  | Ok (a : A)
  | AssertionError.
Arguments Ok {A} a.
Arguments AssertionError {A}.

Section PackageDescriptor.
Context {rt : Runtime}.

(** The slots of a package descriptor.  [path] is a [Path] as the
    constructor leaves it, but it is a slot like the others and can be
    assigned any value. *)
Record PackageDescriptor := {
  path : pyval;
  type : option string;
  name : option string;
  dependencies : gmap string entry_set;
  hooks : list string;
  metadata : gmap string string;
}.

(** The argument of the constructor: a [str], a [Path], or nothing
    meaningful ([None]); [str()] of it is what [__init__] uses. *)
Inductive path_arg :=
  | ArgStr (s : string)
  | ArgPath (p : Path)
  | ArgNone.

Definition py_str (a : path_arg) : string :=
  match a with
  | ArgStr s => s
  | ArgPath p => Path_str p
  | ArgNone => "None"
  end.

(** [PackageDescriptor.__init__] *)
Definition __init__ (path : path_arg) : PackageDescriptor :=
  {| path := VPath (Path_new (py_str path));
     type := None;
     name := None;
     dependencies := ∅;
     hooks := [];
     metadata := ∅ |}.

(** [PackageDescriptor.identifies_package] *)
Definition identifies_package (self : PackageDescriptor) : pyval :=
  py_and (py_and (path self) (of_opt (type self))) (of_opt (name self)).

(** [self.dependencies[category]] on a [defaultdict(set)]: a missing key
    is inserted with an empty set. *)
Definition defaultdict_get (m : gmap string entry_set) (k : string)
  : entry_set * gmap string entry_set :=
  match m !! k with
  | Some s => (s, m)
  | None => (∅, <[k := ∅]> m)
  end.

(** The body of [for category in sorted(categories)]. *)
Definition add_category (st : entry_set * gmap string entry_set) (category : string)
  : entry_set * gmap string entry_set :=
  let '(s, m) := defaultdict_get st.2 category in
  (st.1 ∪ s, m).

(** [self.dependencies.keys()] *)
Definition keys (m : gmap string entry_set) : list string := (map_to_list m).*1.

(** [self.name not in dependencies], negated. *)
Definition name_in (n : option string) (s : entry_set) : bool :=
  match n with
  | Some n => bool_decide (is_Some (s !! n))
  | None => false
  end.

Definition with_dependencies (self : PackageDescriptor) (m : gmap string entry_set)
  : PackageDescriptor :=
  {| path := path self; type := type self; name := name self;
     dependencies := m; hooks := hooks self; metadata := metadata self |}.

(** The first half of [PackageDescriptor.get_dependencies], up to the
    [assert]: the set collected by the loop, and [self.dependencies] as
    the loop leaves it. *)
Definition collect (self : PackageDescriptor) (categories : option (list string))
  : entry_set * gmap string entry_set :=
  let categories :=
    match categories with
    | None => keys (dependencies self)
    | Some cs => cs
    end in
  foldl add_category (∅, dependencies self) (sorted categories).

(** [PackageDescriptor.get_dependencies]: the result, and the descriptor
    as the call leaves it. *)
Definition get_dependencies (self : PackageDescriptor) (categories : option (list string))
  : result dep_set * PackageDescriptor :=
  let '(deps, m) := collect self categories in
  let self' := with_dependencies self m in
  if name_in (name self) deps
  then (AssertionError, self')
  else (Ok (coerce <$> deps), self').

(** [PackageDescriptor.__hash__] *)
Definition __hash__ (self : PackageDescriptor) : Z :=
  hash (type self, name self).

(** [PackageDescriptor.__eq__] on two package descriptors (the
    [NotImplemented] branch is for an [other] of another class). *)
Definition __eq__ (self other : PackageDescriptor) : bool :=
  if negb (bool_decide ((type self, name self) = (type other, name other))) then false
  else if bool_decide (path self = path other) then true
  else bool_decide (realpath (value_str (path self)) = realpath (value_str (path other))).

End PackageDescriptor.

(** ** The dependency walker *)

(** [DependencyCache] is a dictionary from dependency names to closures.
    Expanding a name can raise [AssertionError] (from [get_dependencies])
    and nests calls of [__missing__]; a computation on the cache is a
    function of the cache that, within a given nesting depth, either does
    not come back ([None]), raises, or returns a value, in both cases with
    the cache as it is then. *)
Abbreviation cache := (gmap string dep_set).

Definition M (A : Type) : Type := cache → option (result A * cache).

Definition ret {A} (a : A) : M A := λ c, Some (Ok a, c).

Definition bind {A B} (m : M A) (f : A → M B) : M B := λ c,
  match m c with
  | None => None
  | Some (AssertionError, c') => Some (AssertionError, c')
  | Some (Ok a, c') => f a c'
  end.

Definition lift {A} (r : result A) : M A := λ c, Some (r, c).

(** [self[key] = value] *)
Definition setitem (key : DependencyDescriptor) (value : dep_set) : M unit := λ c,
  Some (Ok (), <[dep_name key := value]> c).

Notation "'do' x <- m ; k" := (bind m (λ x, k))
  (at level 10, x name, m at level 100, k at level 200, only parsing).

(** [for x in l: acc = body(acc, x)] *)
Fixpoint for_each {A B} (l : list A) (body : B → A → M B) (acc : B) : M B :=
  match l with
  | [] => ret acc
  | x :: l => do acc' <- body acc x; for_each l body acc'
  end.

(** [self.dependency_cache[dep]]: the entry when there is one, else
    [__missing__]. *)
Definition getitem (missing : DependencyDescriptor → M dep_set)
    (key : DependencyDescriptor) : M dep_set := λ c,
  match c !! dep_name key with
  | Some s => Some (Ok s, c)
  | None => missing key c
  end.

(** The body of [DependencyWalker.get_recursive_dependencies], over the
    [__missing__] of the cache. *)
Definition union_of_closures (missing : DependencyDescriptor → M dep_set)
    (dependency_descriptors : list DependencyDescriptor) : M dep_set :=
  for_each dependency_descriptors
    (λ total_dependency_set dep,
       do s <- getitem missing dep;
       ret (total_dependency_set ∪ s))
    ∅.

Section DependencyWalker.
Context {rt : Runtime}.

Record DependencyWalker := {
  categories : option (list string);
  dependency_cache : cache;
  descriptors_by_name : gmap (option string) (list PackageDescriptor);
}.

(** [s.add(d)] on a set of package descriptors, which compare with
    [__eq__] (equal descriptors hash alike, so the set finds them). *)
Definition descriptors_add (d : PackageDescriptor) (s : list PackageDescriptor)
  : list PackageDescriptor :=
  if existsb (λ e, __eq__ e d) s then s else s ++ [d].

(** [DependencyWalker.__init__] *)
Definition walker_init (descriptors : list PackageDescriptor)
    (categories : option (list string)) : DependencyWalker :=
  {| categories := categories;
     dependency_cache := ∅;
     descriptors_by_name :=
       foldl (λ m d, <[name d := descriptors_add d (default [] (m !! name d))]> m)
             ∅ descriptors |}.

(** [DependencyCache.__missing__]; [fuel] bounds the nesting of
    [__missing__] calls, [oself] is the walker the cache belongs to. *)
Fixpoint __missing__ (fuel : nat) (oself : DependencyWalker)
    (key : DependencyDescriptor) : M dep_set :=
  match fuel with
  | 0 => λ _, None
  | S fuel =>
      do dependency_set <-
        match descriptors_by_name oself !! Some (dep_name key) with
        | Some descriptors =>
            for_each descriptors
              (λ dependency_set descriptor,
                 do dependencies <- lift (get_dependencies descriptor (categories oself)).1;
                 do recursive_deps <-
                   union_of_closures (__missing__ fuel oself) (elements_of dependencies);
                 ret (dependency_set ∪ recursive_deps))
              (set_add key ∅)
        | None => ret ∅
        end;
      do _ <- setitem key dependency_set;
      ret dependency_set
  end.

Definition with_cache (self : DependencyWalker) (c : cache) : DependencyWalker :=
  {| categories := categories self;
     dependency_cache := c;
     descriptors_by_name := descriptors_by_name self |}.

(** [DependencyWalker.get_recursive_dependencies] *)
Definition get_recursive_dependencies (fuel : nat) (self : DependencyWalker)
    (dependency_descriptors : list DependencyDescriptor)
  : option (result dep_set * DependencyWalker) :=
  match union_of_closures (__missing__ fuel self) dependency_descriptors
          (dependency_cache self) with
  | None => None
  | Some (r, c) => Some (r, with_cache self c)
  end.

End DependencyWalker.

(** ** The console start/end event handler *)

(** A result code as a job reports it: [None], an [int], or a [str]. *)
Inductive rc_value :=
  | RcNone
  | RcInt (z : Z)
  | RcStr (s : string).

#[global] Instance rc_value_eq_dec : EqDecision rc_value.
Proof. solve_decision. Defined.

(** [not rc], negated. *)
Definition rc_truthy (rc : rc_value) : bool :=
  match rc with
  | RcNone => false
  | RcInt z => negb (Z.eqb z 0)
  | RcStr s => negb (String.eqb s "")
  end.

(** [str(rc)], as [format_map] renders [{data.rc}]. *)
Definition rc_str (rc : rc_value) : string :=
  match rc with
  | RcNone => "None"
  | RcInt z => pretty z
  | RcStr s => s
  end.

(** The data of an event: [event[0]]. *)
Inductive event_data :=
  | JobStarted (identifier : string)
  | JobEnded (identifier : string) (rc : rc_value)
  | OtherEvent.

Inductive stream := stdout | stderr.

(** One call of [print(text, file=file, flush=flush)]. *)
Record print_call := {
  text : string;
  file : stream;
  flush : bool;
}.

Inductive outcome (S : Type) :=
  | Returned (written : list print_call) (self : S)
  | KeyError.
Arguments Returned {S} written self.
Arguments KeyError {S}.

Definition tab : string := String (Ascii.ascii_of_nat 9) "".

Section ConsoleStartEndEventHandler.
Context {rt : Runtime}.

(** [colcon_core.subprocess.SIGINT_RESULT], the result code of an
    interrupted job; its definition is outside the sources. *)
Variable SIGINT_RESULT : rc_value.

Record ConsoleStartEndEventHandler := {
  _start_times : gmap string Time;
}.

(** [ConsoleStartEndEventHandler.__init__] *)
Definition handler_init : ConsoleStartEndEventHandler :=
  {| _start_times := ∅ |}.

(** [ConsoleStartEndEventHandler.__call__]; [now] is what [time.time()]
    returns in this call. *)
Definition __call__ (self : ConsoleStartEndEventHandler) (data : event_data) (now : Time)
  : outcome ConsoleStartEndEventHandler :=
  match data with
  | JobStarted identifier =>
      Returned
        [ {| text := "Starting >>> " +:+ identifier; file := stdout; flush := true |} ]
        {| _start_times := <[identifier := now]> (_start_times self) |}
  | JobEnded identifier rc =>
      match _start_times self !! identifier with
      | None => KeyError
      | Some start =>
          let duration := time_sub now start in
          let '(msg, writable) :=
            if negb (rc_truthy rc) then
              ("Finished <<< " +:+ identifier +:+ " [" +:+ format_2f duration +:+ "s]",
               stdout)
            else if bool_decide (rc = SIGINT_RESULT) then
              ("Aborted  <<< " +:+ identifier, stdout)
            else
              ("Failed   <<< " +:+ identifier +:+ tab +:+ " " +:+
               "[ Exited with code " +:+ rc_str rc +:+ " ]",
               stderr) in
          Returned [ {| text := msg; file := writable; flush := true |} ] self
      end
  | OtherEvent => Returned [] self
  end.

End ConsoleStartEndEventHandler.


(** ** Recursive dependencies of a package *)

Section RecursiveDependencies.
Context {rt : Runtime}.

(** [PackageDescriptor.get_recursive_dependencies].  A walker object is
    always true, so [not walker] holds for [None] only.  The result comes
    with the walker the call used; the empty categories that the calls of
    [get_dependencies] leave behind in the descriptors are not followed
    here, as in the walker. *)
Definition PackageDescriptor_get_recursive_dependencies (fuel : nat)
    (self : PackageDescriptor) (descriptors : list PackageDescriptor)
    (direct_categories recursive_categories : option (list string))
    (walker : option DependencyWalker)
  : option (result dep_set * DependencyWalker) :=
  let walker :=
    match walker with
    | None => walker_init descriptors recursive_categories
    | Some walker => walker
    end in
  match (get_dependencies self direct_categories).1 with
  | AssertionError => Some (AssertionError, walker)
  | Ok direct_dependencies =>
      get_recursive_dependencies fuel walker (elements_of direct_dependencies)
  end.

End RecursiveDependencies.
(** ** Concrete data to evaluate the definitions on *)

Module Examples.

(** A runtime: paths are their text and [Path("")] is ["."], as in
    [pathlib]; no path goes through a symbolic link, except that ["/link"]
    resolves to ["/a"]; the hash of a tuple is a sum of lengths; times are
    whole hundredths of a second. *)
Definition opt_len (o : option string) : Z :=
  match o with None => 0 | Some s => 1 + Z.of_nat (String.length s) end.

Definition two_digits (z : Z) : string :=
  if Z.ltb z 10 then "0" +:+ pretty z else pretty z.

Definition hundredths (z : Z) : string :=
  (if Z.ltb z 0 then "-" else "") +:+
  pretty (Z.abs z / 100)%Z +:+ "." +:+ two_digits (Z.abs z mod 100)%Z.

Definition simple_runtime : Runtime := {|
  Path := string;
  Path_new s := if String.eqb s "" then "." else s;
  Path_str s := s;
  realpath s := if String.eqb s "/link" then "/a" else s;
  hash p := (opt_len p.1 + opt_len p.2)%Z;
  Time := Z;
  time_sub := Z.sub;
  format_2f := hundredths;
|}.
#[local] Existing Instance simple_runtime.

(** A descriptor as discovery fills it in: constructed from a path, then
    [type], [name] and [dependencies] assigned. *)
Definition describe (p : path_arg) (t n : option string)
    (deps : list (string * list (string * entry))) : PackageDescriptor :=
  let d := __init__ p in
  {| path := path d; type := t; name := n;
     dependencies := list_to_map ((λ x, (x.1, list_to_map x.2)) <$> deps);
     hooks := hooks d; metadata := metadata d |}.

Definition dep (n : string) : DependencyDescriptor :=
  {| dep_name := n; dep_metadata := ∅ |}.

Definition versioned (n v : string) : DependencyDescriptor :=
  {| dep_name := n; dep_metadata := {[ "version" := v ]} |}.

(** [A] and [B] depend on each other. *)
Definition cyc_A : PackageDescriptor :=
  describe (ArgStr "/a") (Some "cmake") (Some "A") [("run", [("B", bare)])].
Definition cyc_B : PackageDescriptor :=
  describe (ArgStr "/b") (Some "cmake") (Some "B") [("run", [("A", bare)])].
Definition cyclic_walker : DependencyWalker := walker_init [cyc_A; cyc_B] None.

(** [A] depends on [B] and on [ext], [B] on [C]; [ext] is not a package. *)
Definition pkg_A : PackageDescriptor :=
  describe (ArgStr "/a") (Some "cmake") (Some "A")
    [("build", [("ext", bare)]); ("run", [("B", bare)])].
Definition pkg_B : PackageDescriptor :=
  describe (ArgStr "/b") (Some "cmake") (Some "B")
    [("run", [("C", typed {[ "version" := "2" ]})])].
Definition pkg_C : PackageDescriptor :=
  describe (ArgStr "/c") (Some "python") (Some "C") [].
Definition walker : DependencyWalker := walker_init [pkg_A; pkg_B; pkg_C] None.

(** A rank along which the dependencies of [walker] go down. *)
Definition rank (n : string) : nat :=
  if String.eqb n "A" then 2 else if String.eqb n "B" then 1 else 0.

(** A package that lists itself. *)
Definition selfish : PackageDescriptor :=
  describe (ArgStr "/s") (Some "cmake") (Some "S")
    [("build", [("T", bare)]); ("test", [("S", typed ∅)])].
Definition selfish_walker : DependencyWalker := walker_init [selfish] None.

(** A package that lists [B] twice: with a version under [build], as a
    bare string under [run]. *)
Definition twice : PackageDescriptor :=
  describe (ArgStr "/t") (Some "cmake") (Some "T")
    [("build", [("B", typed {[ "version" := "1" ]})]); ("run", [("B", bare)])].

(** A complete descriptor made from an empty path, and one from no path. *)
Definition from_empty_path : PackageDescriptor :=
  describe (ArgStr "") (Some "cmake") (Some "A") [].
Definition from_no_path : PackageDescriptor :=
  describe ArgNone (Some "cmake") (Some "A") [].

(** The same descriptor after [path] was assigned [None], and after it was
    assigned the empty string. *)
Definition with_path (d : PackageDescriptor) (v : pyval) : PackageDescriptor :=
  {| path := v; type := type d; name := name d; dependencies := dependencies d;
     hooks := hooks d; metadata := metadata d |}.
Definition path_none : PackageDescriptor := with_path from_no_path VNone.
Definition path_empty : PackageDescriptor := with_path from_no_path (VStr "").

(** The same package found at ["/a"] and through the link ["/link"], and a
    package of the same type and name somewhere else. *)
Definition at_link : PackageDescriptor :=
  describe (ArgStr "/link") (Some "cmake") (Some "A") [].
Definition at_a : PackageDescriptor :=
  describe (ArgStr "/a") (Some "cmake") (Some "A") [].
Definition elsewhere : PackageDescriptor :=
  describe (ArgStr "/b") (Some "cmake") (Some "A") [].

(** A handler that saw [pkgX] start at 1.00 s. *)
Definition running : ConsoleStartEndEventHandler :=
  {| _start_times := {[ "pkgX" := 100%Z ]} |}.
Definition SIGINT : rc_value := RcStr "SIGINT".

End Examples.

(** ** Notions the properties are stated with *)

Section Notions.
Context {rt : Runtime}.

(** The categories a call of [get_dependencies] ranges over: every declared
    one when [categories] is [None], the named ones otherwise. *)
Definition selected (self : PackageDescriptor) (categories : option (list string))
    (c : string) : Prop :=
  match categories with
  | None => is_Some (dependencies self !! c)
  | Some cs => c ∈ cs
  end.

(** [self] lists the name [n], as the entry [e], in a selected category. *)
Definition listed (self : PackageDescriptor) (categories : option (list string))
    (n : string) (e : entry) : Prop :=
  ∃ c s, selected self categories c ∧ dependencies self !! c = Some s ∧ s !! n = Some e.

(** [m'] is [m] with empty sets under some more categories. *)
Definition padded (m m' : gmap string entry_set) : Prop :=
  ∀ c, m' !! c = m !! c ∨ (m !! c = None ∧ m' !! c = Some ∅).

End Notions.

Section WalkerNotions.
Context {rt : Runtime}.

(** [n] is the name of a package the walker knows. *)
Definition known (w : DependencyWalker) (n : string) : Prop :=
  is_Some (descriptors_by_name w !! Some n).

(** A package registered under [a] lists [b] in one of the walker's
    categories, and [b] is a known package. *)
Definition edge (w : DependencyWalker) (a b : string) : Prop :=
  (∃ ds d e, descriptors_by_name w !! Some a = Some ds ∧ d ∈ ds ∧
             listed d (categories w) b e)
  ∧ known w b.

(** [b] is [a] or a known package reached from [a] through known packages. *)
Definition reaches (w : DependencyWalker) : string → string → Prop := rtc (edge w).

(** [a] lies on a cycle of dependencies. *)
Definition cyclic (w : DependencyWalker) (a : string) : Prop := tc (edge w) a a.

(** Dependencies go down along [rank]. *)
Definition acyclic_by (w : DependencyWalker) (rank : string → nat) : Prop :=
  ∀ a b, edge w a b → rank b < rank a.

(** The same, as a check on the walker's descriptors. *)
Definition ranked (w : DependencyWalker) (rank : string → nat) : bool :=
  forallb
    (λ kds, match kds.1 with
            | None => true
            | Some a =>
                forallb
                  (λ d, forallb
                          (λ b, if bool_decide (known w b)
                                then bool_decide (rank b < rank a) else true)
                          (map_to_list (collect d (categories w)).1).*1)
                  kds.2
            end)
    (map_to_list (descriptors_by_name w)).

(** [s] is the closure of the name [k]: empty when [k] is not known. *)
Definition closure_of (w : DependencyWalker) (k : string) (s : dep_set) : Prop :=
  ∀ m, is_Some (s !! m) ↔ known w k ∧ reaches w k m.

(** No two descriptors of the list are equal by [__eq__]. *)
Definition distinct (l : list PackageDescriptor) : Prop :=
  ∀ i j e1 e2, l !! i = Some e1 → l !! j = Some e2 → i < j → __eq__ e1 e2 = false.

(** The walkers the code makes: a new one, and one after a call that came
    back (with a result or with [AssertionError]). *)
Inductive walker_state : DependencyWalker → Prop :=
  | ws_init descriptors categories :
      walker_state (walker_init descriptors categories)
  | ws_call w fuel dependency_descriptors r w' :
      walker_state w →
      get_recursive_dependencies fuel w dependency_descriptors = Some (r, w') →
      walker_state w'.

(** A call that does not come back within any nesting depth. *)
Definition diverges {A} (call : nat → option A) : Prop := ∀ fuel, call fuel = None.

End WalkerNotions.

(** ** Reasoning about computations on the cache *)

(** From a cache that satisfies [P], the computation [m], when it comes
    back, returns a value and a cache that satisfy [Q], or raises with a
    cache that satisfies [E]. *)
Definition triple {A} (P : cache → Prop) (m : M A)
    (Q : A → cache → Prop) (E : cache → Prop) : Prop :=
  ∀ c r c', P c → m c = Some (r, c') →
    match r with Ok a => Q a c' | AssertionError => E c' end.

(** The cache only grows: an entry, once there, stays as it is. *)
Definition extends (c0 : cache) (missing : DependencyDescriptor → M dep_set) : Prop :=
  ∀ key, triple (λ c, c0 ⊆ c ∧ c !! dep_name key = None) (missing key)
           (λ _ c, c0 ⊆ c) (λ c, c0 ⊆ c).

Section CacheNotions.
Context {rt : Runtime}.
Variable w : DependencyWalker.

(** Every entry of the cache is the closure of its name. *)
Definition cache_ok (c : cache) : Prop :=
  ∀ k s, c !! k = Some s → closure_of w k s.

Definition sound (missing : DependencyDescriptor → M dep_set) : Prop :=
  ∀ key, triple cache_ok (missing key)
           (λ s c, cache_ok c ∧ closure_of w (dep_name key) s) cache_ok.

(** [s] is the union of the closures of the known names among [deps]. *)
Definition union_closure (deps : list DependencyDescriptor) (s : dep_set) : Prop :=
  ∀ m, is_Some (s !! m) ↔
       ∃ dep, dep ∈ deps ∧ known w (dep_name dep) ∧ reaches w (dep_name dep) m.

(** What the loop over the descriptors of [key] has collected after the
    descriptors [seen]. *)
Definition collected (key : string) (seen : list PackageDescriptor) (acc : dep_set) : Prop :=
  ∀ m, is_Some (acc !! m) ↔
       m = key ∨ ∃ d n e, d ∈ seen ∧ listed d (categories w) n e ∧
                          known w n ∧ reaches w n m.

End CacheNotions.

(** No name on a cycle has an entry in the cache. *)
Definition cycle_free {rt : Runtime} (w : DependencyWalker) (c : cache) : Prop :=
  ∀ n, cyclic w n → c !! n = None.

(** Some registered descriptor lists its own name in the walker's
    categories. *)
Definition self_listing {rt : Runtime} (w : DependencyWalker) : Prop :=
  ∃ k ds d, descriptors_by_name w !! k = Some ds ∧ d ∈ ds ∧
            (get_dependencies d (categories w)).1 = AssertionError.

(** The same, as a check on the walker's descriptors. *)
Definition self_listingb {rt : Runtime} (w : DependencyWalker) : bool :=
  existsb
    (λ kds, existsb
              (λ d, match (get_dependencies d (categories w)).1 with
                    | AssertionError => true
                    | Ok _ => false
                    end)
              kds.2)
    (map_to_list (descriptors_by_name w)).

(** A computation that comes back with a result, whatever the cache, and
    with one that satisfies [Q]. *)
Definition returns {A} (m : M A) (Q : A → Prop) : Prop :=
  ∀ c, ∃ a c', m c = Some (Ok a, c') ∧ Q a.

(** Whatever [m1] comes back with, [m2] comes back with. *)
Definition below {A} (m1 m2 : M A) : Prop :=
  ∀ c r, m1 c = Some r → m2 c = Some r.

(** [n] is, or reaches through known packages, a package with a
    registered descriptor that lists its own name in the walker's
    categories. *)
Definition blamed {rt : Runtime} (w : DependencyWalker) (n : string) : Prop :=
  ∃ m ds d, reaches w n m ∧ descriptors_by_name w !! Some m = Some ds ∧ d ∈ ds ∧
            (get_dependencies d (categories w)).1 = AssertionError.

(** The cache has no entry for such a name. *)
Definition blame_free {rt : Runtime} (w : DependencyWalker) (c : cache) : Prop :=
  ∀ n, blamed w n → c !! n = None.

Section HandlerNotions.
Context {rt : Runtime}.
Variable SIGINT_RESULT : rc_value.

(** The handler called with one event after the other, each with the time
    of its call, as long as no call raises: the lines printed, in order,
    and the handler afterwards. *)
Fixpoint calls (self : ConsoleStartEndEventHandler) (events : list (event_data * Time))
  : outcome ConsoleStartEndEventHandler :=
  match events with
  | [] => Returned [] self
  | (data, now) :: events =>
      match __call__ SIGINT_RESULT self data now with
      | KeyError => KeyError
      | Returned written self =>
          match calls self events with
          | KeyError => KeyError
          | Returned written' self => Returned (written ++ written') self
          end
      end
  end.

(** The job [identifier] starts among the events. *)
Definition starts (events : list (event_data * Time)) (identifier : string) : Prop :=
  ∃ now, (JobStarted identifier, now) ∈ events.

(** The event is the start or the end of a job. *)
Definition of_job (event : event_data * Time) : bool :=
  match event.1 with
  | OtherEvent => false
  | _ => true
  end.

(** The event is the end of a job with a result code that is neither a
    success nor the interruption code. *)
Definition failed (event : event_data * Time) : bool :=
  match event.1 with
  | JobEnded _ rc => rc_truthy rc && negb (bool_decide (rc = SIGINT_RESULT))
  | _ => false
  end.

Definition to_stderr (p : print_call) : bool :=
  match file p with
  | stderr => true
  | stdout => false
  end.

End HandlerNotions.

(** * Properties *)

(** ** Identity of a package descriptor *)

Section Identity.
Context {rt : Runtime}.

Lemma truthy_of_opt (o : option string) :
  truthy (of_opt o) = true ↔ ∃ s, o = Some s ∧ s ≠ "".
Proof.
  destruct o as [s|]; simpl.
  - rewrite negb_true_iff, String.eqb_neq. naive_solver.
  - naive_solver.
Qed.

(** C7, as the code has it: [identifies_package()] holds exactly when
    [path], [type] and [name] all hold: the path is neither [None] nor
    empty, and type and name are set and non-empty.  A path as the
    constructor stores it is a [Path] object, which holds whatever it was
    made from. *)
Theorem identifies_package_all_set (self : PackageDescriptor) :
  (truthy (identifies_package self) = true ↔
     truthy (path self) = true
     ∧ (∃ t, type self = Some t ∧ t ≠ "") ∧ (∃ n, name self = Some n ∧ n ≠ ""))
  ∧ (∀ p, truthy (path (__init__ p)) = true).
Proof.
  split; [|done]. unfold identifies_package, py_and.
  rewrite <-!truthy_of_opt.
  destruct (truthy (path self)) eqn:Hp.
  - destruct (truthy (of_opt (type self))) eqn:Ht; [naive_solver|].
    rewrite Ht. naive_solver.
  - rewrite Hp. simpl. rewrite Hp. naive_solver.
Qed.

(** C6: two package descriptors are equal exactly when type and name agree
    and the paths are equal or resolve to the same real path; with the
    same type and name and different real paths they are unequal; the hash
    is a function of type and name, so equal descriptors hash alike. *)
Theorem eq_and_hash (self other : PackageDescriptor) :
  (__eq__ self other = true ↔
     (type self, name self) = (type other, name other) ∧
     (path self = path other ∨
      realpath (value_str (path self)) = realpath (value_str (path other))))
  ∧ ((type self, name self) = (type other, name other) →
     realpath (value_str (path self)) ≠ realpath (value_str (path other)) →
     __eq__ self other = false)
  ∧ __hash__ self = hash (type self, name self)
  ∧ (__eq__ self other = true → __hash__ self = __hash__ other).
Proof.
  unfold __eq__, __hash__.
  repeat case_bool_decide; simpl; repeat split; try done;
    first [congruence | naive_solver].
Qed.

End Identity.

Section IdentityExamples.
#[local] Existing Instance Examples.simple_runtime.

(** C7 as stated fails: a descriptor constructed from the empty path, with
    type and name set, identifies a package, and so does one constructed
    from no path at all. *)
Lemma identifies_package_empty_path :
  path Examples.from_empty_path = path (__init__ (ArgStr ""))
  ∧ truthy (identifies_package Examples.from_empty_path) = true
  ∧ path Examples.from_no_path = path (__init__ ArgNone)
  ∧ truthy (identifies_package Examples.from_no_path) = true.
Proof. repeat split. Qed.

(** With [None] or the empty string assigned to [path], the same
    descriptors identify no package: the call gives the path back. *)
Lemma identifies_package_falsy_path :
  identifies_package Examples.path_none = VNone
  ∧ identifies_package Examples.path_empty = VStr "".
Proof. split; reflexivity. Qed.

(** The link and its target are one package; the hash does not see the
    path. *)
Lemma eq_and_hash_witness :
  __eq__ Examples.at_link Examples.at_a = true
  ∧ path Examples.at_link ≠ path Examples.at_a
  ∧ __hash__ Examples.at_link = __hash__ Examples.at_a
  ∧ __eq__ Examples.at_a Examples.elsewhere = false.
Proof.
  pose proof (eq_and_hash Examples.at_link Examples.at_a) as (Heq & _ & _ & Hh).
  pose proof (eq_and_hash Examples.at_a Examples.elsewhere) as (_ & Hne & _).
  assert (__eq__ Examples.at_link Examples.at_a = true) as E.
  { apply Heq. split; [reflexivity | right; reflexivity]. }
  split; [exact E|]. split; [discriminate|]. split; [exact (Hh E)|].
  apply Hne; [reflexivity | discriminate].
Defined.

End IdentityExamples.

(** ** The console start/end event handler *)

Section Handler.
Context {rt : Runtime}.
Variable SIGINT_RESULT : rc_value.

(** The interruption code is a result code of its own, not a success. *)
Hypothesis SIGINT_RESULT_truthy : rc_truthy SIGINT_RESULT = true.

(** C8: a start event prints the flushed line [Starting >>> id] on the
    primary stream and records the time; an end event of a started job
    prints [Finished <<< id [d.dds]] on the primary stream for a falsy
    code, [Aborted  <<< id] on the primary stream for the interruption
    code, and [Failed   <<< id<TAB> [ Exited with code rc ]] on the error
    stream for any other code. *)
Theorem call_reports (self : ConsoleStartEndEventHandler) (now : Time) (identifier : string) :
  __call__ SIGINT_RESULT self (JobStarted identifier) now =
    Returned
      [ {| text := "Starting >>> " +:+ identifier; file := stdout; flush := true |} ]
      {| _start_times := <[identifier := now]> (_start_times self) |}
  ∧ ∀ start rc, _start_times self !! identifier = Some start →
      __call__ SIGINT_RESULT self (JobEnded identifier rc) now =
        Returned
          [ if negb (rc_truthy rc) then
              {| text := "Finished <<< " +:+ identifier +:+ " [" +:+
                         format_2f (time_sub now start) +:+ "s]";
                 file := stdout; flush := true |}
            else if decide (rc = SIGINT_RESULT) then
              {| text := "Aborted  <<< " +:+ identifier; file := stdout; flush := true |}
            else
              {| text := "Failed   <<< " +:+ identifier +:+ tab +:+
                         " [ Exited with code " +:+ rc_str rc +:+ " ]";
                 file := stderr; flush := true |} ]
          self
      ∧ __call__ SIGINT_RESULT self (JobEnded identifier SIGINT_RESULT) now =
          Returned
            [ {| text := "Aborted  <<< " +:+ identifier; file := stdout; flush := true |} ]
            self.
Proof.
  split; [done|]. intros start rc Hstart. unfold __call__. rewrite Hstart.
  split.
  - destruct (rc_truthy rc); simpl; [|done].
    destruct (decide (rc = SIGINT_RESULT)) as [->|Hne].
    + by rewrite bool_decide_eq_true_2.
    + by rewrite bool_decide_eq_false_2.
  - rewrite SIGINT_RESULT_truthy. simpl. by rewrite bool_decide_eq_true_2.
Qed.

(** C9: an end event for a job with no recorded start time raises
    [KeyError], whatever the result code, the interruption code included;
    nothing is printed. *)
Theorem call_end_without_start (self : ConsoleStartEndEventHandler) (now : Time)
    (identifier : string) (rc : rc_value) :
  _start_times self !! identifier = None →
  __call__ SIGINT_RESULT self (JobEnded identifier rc) now = KeyError
  ∧ __call__ SIGINT_RESULT self (JobEnded identifier SIGINT_RESULT) now = KeyError.
Proof. intros Hnone. unfold __call__. by rewrite Hnone. Qed.

End Handler.

Section HandlerExamples.
#[local] Existing Instance Examples.simple_runtime.

(** The reports of the specification: [pkgX], started at 1.00 s, ends at
    2.23 s with code 0, with the interruption code, and with code 2. *)
Lemma call_reports_witness :
  rc_truthy Examples.SIGINT = true
  ∧ __call__ Examples.SIGINT handler_init (JobStarted "pkgX") 100%Z =
      Returned [ {| text := "Starting >>> pkgX"; file := stdout; flush := true |} ]
               Examples.running
  ∧ __call__ Examples.SIGINT Examples.running (JobEnded "pkgX" (RcInt 0)) 223%Z =
      Returned [ {| text := "Finished <<< pkgX [1.23s]"; file := stdout; flush := true |} ]
               Examples.running
  ∧ __call__ Examples.SIGINT Examples.running (JobEnded "pkgX" Examples.SIGINT) 223%Z =
      Returned [ {| text := "Aborted  <<< pkgX"; file := stdout; flush := true |} ]
               Examples.running
  ∧ __call__ Examples.SIGINT Examples.running (JobEnded "pkgX" (RcInt 2)) 223%Z =
      Returned [ {| text := "Failed   <<< pkgX" +:+ tab +:+ " [ Exited with code 2 ]";
                    file := stderr; flush := true |} ]
               Examples.running.
Proof.
  pose proof (call_reports Examples.SIGINT eq_refl handler_init 100%Z "pkgX") as [Hs _].
  pose proof (call_reports Examples.SIGINT eq_refl Examples.running 223%Z "pkgX") as [_ He].
  split; [reflexivity|]. split; [exact Hs|].
  split; [exact (proj1 (He 100%Z (RcInt 0) eq_refl))|].
  split; [exact (proj2 (He 100%Z (RcInt 0) eq_refl))|].
  exact (proj1 (He 100%Z (RcInt 2) eq_refl)).
Defined.

(** An end event for a job that never started. *)
Lemma call_end_without_start_witness :
  _start_times Examples.running !! "pkgY" = None
  ∧ __call__ Examples.SIGINT Examples.running (JobEnded "pkgY" (RcInt 0)) 223%Z = KeyError
  ∧ __call__ Examples.SIGINT Examples.running (JobEnded "pkgY" Examples.SIGINT) 223%Z = KeyError.
Proof.
  split; [reflexivity|].
  exact (call_end_without_start Examples.SIGINT Examples.running 223%Z "pkgY" (RcInt 0) eq_refl).
Defined.

End HandlerExamples.

(** ** Sorting category names *)

#[global] Instance str_le_trans : Transitive str_le.
Proof.
  intros a. induction a as [|x a IH]; intros [|y b] [|z c]; unfold str_le, String.leb; simpl; try done.
  destruct (Ascii.compare x y) eqn:Hxy; [| |done].
  - apply Ascii.compare_eq_iff in Hxy as ->.
    destruct (Ascii.compare y z); [|done..]. apply IH.
  - destruct (Ascii.compare y z) eqn:Hyz; [| |done].
    + apply Ascii.compare_eq_iff in Hyz as ->. by rewrite Hxy.
    + unfold Ascii.compare in *. rewrite N.compare_lt_iff in Hxy, Hyz.
      assert (N.compare (Ascii.N_of_ascii x) (Ascii.N_of_ascii z) = Lt) as ->; [|done].
      apply N.compare_lt_iff. lia.
Qed.
#[global] Instance str_le_antisym : AntiSymm (=) str_le.
Proof. intros a b. apply String.leb_antisym. Qed.
#[global] Instance str_le_total : Total str_le.
Proof. intros a b. apply String.leb_total. Qed.

Lemma sorted_Permutation (l : list string) : sorted l ≡ₚ l.
Proof. apply merge_sort_Permutation. Qed.

Lemma sorted_perm_eq (l1 l2 : list string) : l1 ≡ₚ l2 → sorted l1 = sorted l2.
Proof.
  intros E. apply (Sorted_unique str_le); try apply Sorted_merge_sort; try apply _.
  by rewrite !sorted_Permutation.
Qed.

Lemma elem_of_sorted (l : list string) c : c ∈ sorted l ↔ c ∈ l.
Proof. by rewrite sorted_Permutation. Qed.

(** ** Direct dependencies *)

Section GetDependencies.
Context {rt : Runtime}.

Lemma foldl_add_category (cs : list string) : ∀ (acc : entry_set) (m : gmap string entry_set) acc' m',
  foldl add_category (acc, m) cs = (acc', m') →
  (∀ c, m' !! c = match m !! c with
                  | Some s => Some s
                  | None => if decide (c ∈ cs) then Some ∅ else None
                  end)
  ∧ (∀ n e, acc' !! n = Some e →
       acc !! n = Some e ∨ ∃ c s, c ∈ cs ∧ m !! c = Some s ∧ s !! n = Some e)
  ∧ (∀ n, is_Some (acc !! n) ∨ (∃ c s, c ∈ cs ∧ m !! c = Some s ∧ is_Some (s !! n)) →
       is_Some (acc' !! n)).
Proof.
  induction cs as [|c cs IH]; intros acc m acc' m' Hf; simpl in Hf.
  - injection Hf as <- <-. split_and!.
    + intros c. destruct (m !! c); [done|]. by rewrite decide_False by set_solver.
    + naive_solver.
    + intros n [?|(c & s & Hc & _)]; [done|]. set_solver.
  - unfold add_category at 2 in Hf. unfold defaultdict_get in Hf. simpl in Hf.
    destruct (m !! c) as [s0|] eqn:Hc.
    + apply IH in Hf as (Hm & Hprov & Hcompl). split_and!.
      * intros k. rewrite Hm. destruct (m !! k) eqn:Hk; [done|].
        assert (k ≠ c) by congruence.
        repeat case_decide; set_solver.
      * intros n e Hn. apply Hprov in Hn as [Hn|(c' & s & ? & ? & ?)].
        -- apply lookup_union_Some_raw in Hn as [?|[? ?]]; [by left|].
           right. exists c, s0. set_solver.
        -- right. exists c', s. set_solver.
      * intros n Hn. apply Hcompl. rewrite lookup_union_is_Some.
        destruct Hn as [?|(c' & s & Hc' & Hs & Hn)]; [by left; left|].
        apply elem_of_cons in Hc' as [->|Hc'].
        -- left; right. congruence.
        -- right. eauto.
    + apply IH in Hf as (Hm & Hprov & Hcompl). split_and!.
      * intros k. rewrite Hm. destruct (decide (k = c)) as [->|Hne].
        -- rewrite lookup_insert_eq, Hc. by rewrite decide_True by set_solver.
        -- rewrite lookup_insert_ne by done. destruct (m !! k); [done|].
           repeat case_decide; set_solver.
      * intros n e Hn. apply Hprov in Hn as [Hn|(c' & s & ? & Hs & ?)].
        -- apply lookup_union_Some_raw in Hn as [?|[? ?]]; [by left|done].
        -- right. destruct (decide (c' = c)) as [->|Hne].
           ++ rewrite lookup_insert_eq in Hs. by simplify_eq.
           ++ rewrite lookup_insert_ne in Hs by done. exists c', s. set_solver.
      * intros n Hn. apply Hcompl. rewrite lookup_union_is_Some.
        destruct Hn as [?|(c' & s & Hc' & Hs & Hn)]; [by left; left|].
        apply elem_of_cons in Hc' as [->|Hc']; [congruence|].
        right. exists c', s. split_and!; [done| |done].
        rewrite lookup_insert_ne; [done|congruence].
Qed.

Lemma elem_of_keys (m : gmap string entry_set) c : c ∈ keys m ↔ is_Some (m !! c).
Proof.
  unfold keys. rewrite list_elem_of_fmap. split.
  - intros ([c' s] & -> & Hin). apply elem_of_map_to_list in Hin. eauto.
  - intros [s Hs]. exists (c, s). split; [done|]. by apply elem_of_map_to_list.
Qed.

Lemma collect_spec (self : PackageDescriptor) (categories : option (list string)) :
  (∀ c, (collect self categories).2 !! c =
        match dependencies self !! c with
        | Some s => Some s
        | None => match categories with
                  | Some cs => if decide (c ∈ cs) then Some ∅ else None
                  | None => None
                  end
        end)
  ∧ (∀ n e, (collect self categories).1 !! n = Some e → listed self categories n e)
  ∧ (∀ n e, listed self categories n e → is_Some ((collect self categories).1 !! n)).
Proof.
  unfold collect.
  destruct (foldl add_category _ _) as [acc' m'] eqn:Hf.
  apply foldl_add_category in Hf as (Hm & Hprov & Hcompl). simpl.
  split_and!.
  - intros c. rewrite Hm. destruct (dependencies self !! c) eqn:Hc; [done|].
    destruct categories as [cs|].
    + repeat case_decide; try done; rewrite elem_of_sorted in *; done.
    + rewrite decide_False; [done|]. rewrite elem_of_sorted, elem_of_keys, Hc.
      by intros [? ?].
  - intros n e Hn. apply Hprov in Hn as [Hn|(c & s & Hc & Hs & Hn)]; [done|].
    exists c, s. split_and!; [|done..].
    rewrite elem_of_sorted in Hc. destruct categories; simpl; [done|].
    by apply elem_of_keys.
  - intros n e (c & s & Hsel & Hs & Hn). apply Hcompl. right.
    exists c, s. split_and!; [|done|by eauto].
    rewrite elem_of_sorted. destruct categories; simpl in *; [done|].
    by apply elem_of_keys.
Qed.

Lemma name_in_listed (self : PackageDescriptor) (categories : option (list string)) :
  name_in (name self) (collect self categories).1 = true ↔
  ∃ n e, name self = Some n ∧ listed self categories n e.
Proof.
  destruct (collect_spec self categories) as (_ & Hprov & Hcompl).
  unfold name_in. destruct (name self) as [n|]; [|naive_solver].
  rewrite bool_decide_eq_true. split.
  - intros [e He]. eauto.
  - intros (n' & e & [= <-] & Hl). eauto.
Qed.

Lemma get_dependencies_unfold (self : PackageDescriptor) (categories : option (list string)) :
  get_dependencies self categories =
    (if name_in (name self) (collect self categories).1
     then AssertionError
     else Ok (coerce <$> (collect self categories).1),
     with_dependencies self (collect self categories).2).
Proof.
  unfold get_dependencies. destruct (collect self categories) as [deps m]. simpl.
  by destruct (name_in _ _).
Qed.

Lemma get_dependencies_Ok_names (self : PackageDescriptor)
    (categories : option (list string)) (r : dep_set) :
  (get_dependencies self categories).1 = Ok r →
  ∀ n, is_Some (r !! n) ↔ ∃ e, listed self categories n e.
Proof.
  rewrite get_dependencies_unfold. simpl.
  destruct (collect_spec self categories) as (_ & Hprov & Hcompl).
  destruct (name_in _ _); [done|]. intros [= <-] n.
  rewrite lookup_fmap, fmap_is_Some. split; intros [e He]; eauto.
Qed.

Lemma get_dependencies_AssertionError (self : PackageDescriptor)
    (categories : option (list string)) :
  (get_dependencies self categories).1 = AssertionError ↔
  ∃ n e, name self = Some n ∧ listed self categories n e.
Proof.
  rewrite get_dependencies_unfold. simpl. rewrite <-name_in_listed.
  by destruct (name_in _ _).
Qed.

(** C2: [get_dependencies] raises [AssertionError] exactly when the
    package's own name is listed, as a bare string or as a typed
    descriptor, in one of the selected categories; otherwise it returns a
    set. *)
Theorem get_dependencies_raises (self : PackageDescriptor) (categories : option (list string)) :
  ((get_dependencies self categories).1 = AssertionError ↔
     ∃ n, name self = Some n ∧
          (listed self categories n bare ∨ ∃ md, listed self categories n (typed md)))
  ∧ ((¬ ∃ n e, name self = Some n ∧ listed self categories n e) →
     ∃ r, (get_dependencies self categories).1 = Ok r).
Proof.
  rewrite get_dependencies_unfold. simpl.
  pose proof (name_in_listed self categories) as Hin.
  destruct (name_in _ _).
  - split.
    + split; [|done]. intros _. destruct Hin as [(n & e & ? & ?) _]; [done|].
      exists n. split; [done|]. destruct e; eauto.
    + intros Hn. destruct Hn. by apply Hin.
  - split; [|eauto]. split; [done|].
    intros (n & Hn & [Hl|[md Hl]]); assert (false = true); try done; apply Hin; eauto.
Qed.

(** C4: the names [get_dependencies] returns are those listed in the
    selected categories (all declared ones for [None], the named ones
    otherwise); a name comes back with empty metadata where it was listed as
    a bare string and with its own metadata where it was listed as a typed
    descriptor; and the order in which the categories are given does not
    matter. *)
Theorem get_dependencies_union (self : PackageDescriptor) (categories : option (list string)) :
  (∀ r, (get_dependencies self categories).1 = Ok r →
     (∀ n, is_Some (r !! n) ↔ ∃ e, listed self categories n e)
     ∧ (∀ n md, r !! n = Some md →
          (listed self categories n bare ∧ md = ∅) ∨ listed self categories n (typed md)))
  ∧ (∀ cs cs', cs ≡ₚ cs' →
       get_dependencies self (Some cs) = get_dependencies self (Some cs')).
Proof.
  split.
  - rewrite get_dependencies_unfold. simpl.
    destruct (collect_spec self categories) as (_ & Hprov & Hcompl).
    destruct (name_in _ _); [done|]. intros r [= <-]. split.
    + intros n. rewrite lookup_fmap, fmap_is_Some. split.
      * intros [e He]. eauto.
      * intros [e He]. eauto.
    + intros n md. rewrite lookup_fmap, fmap_Some. intros (e & He & ->).
      apply Hprov in He. destruct e; simpl; eauto.
  - intros cs cs' E. unfold get_dependencies, collect. by rewrite (sorted_perm_eq cs cs').
Qed.

(** C10: asking for a category that is not declared leaves it behind with
    an empty set; path, type, name, hooks, metadata and the sets of the
    declared categories stay as they are. *)
Theorem get_dependencies_inserts_category (self : PackageDescriptor) (cs : list string)
    (category : string) :
  category ∈ cs →
  dependencies self !! category = None →
  let self' := (get_dependencies self (Some cs)).2 in
  dependencies self' !! category = Some ∅
  ∧ path self' = path self ∧ type self' = type self ∧ name self' = name self
  ∧ hooks self' = hooks self ∧ metadata self' = metadata self
  ∧ (∀ c s, dependencies self !! c = Some s → dependencies self' !! c = Some s)
  ∧ (∀ c, c ∉ cs → dependencies self' !! c = dependencies self !! c).
Proof.
  intros Hin Hnone. rewrite get_dependencies_unfold. simpl.
  destruct (collect_spec self (Some cs)) as (Hm & _ & _).
  split_and!; try done.
  - rewrite Hm, Hnone. by rewrite decide_True.
  - intros c s Hc. by rewrite Hm, Hc.
  - intros c Hc. rewrite Hm. destruct (dependencies self !! c); [done|].
    by rewrite decide_False.
Qed.

Lemma get_dependencies_all_pure (self : PackageDescriptor) :
  (get_dependencies self None).2 = self.
Proof.
  rewrite get_dependencies_unfold. simpl.
  destruct (collect_spec self None) as (Hm & _ & _).
  destruct self as [p t n d h md]. unfold with_dependencies. simpl in *. f_equal.
  apply map_eq. intros c. rewrite Hm. by destruct (d !! c).
Qed.


End GetDependencies.

Section GetDependenciesExamples.
#[local] Existing Instance Examples.simple_runtime.

(** [pkg_A] lists [ext] under [build] and [B] under [run]. *)
Lemma get_dependencies_union_witness :
  (get_dependencies Examples.pkg_A None).1 = Ok {[ "B" := ∅; "ext" := ∅ ]}
  ∧ (get_dependencies Examples.pkg_A (Some ["run"])).1 = Ok {[ "B" := ∅ ]}
  ∧ (get_dependencies Examples.pkg_B (Some ["run"; "build"])).1 =
      Ok {[ "C" := {[ "version" := "2" ]} ]}
  ∧ (∀ n, is_Some (({[ "B" := ∅ ]} : dep_set) !! n) ↔
          ∃ e, listed Examples.pkg_A (Some ["run"]) n e)
  ∧ get_dependencies Examples.pkg_A (Some ["run"; "build"]) =
      get_dependencies Examples.pkg_A (Some ["build"; "run"]).
Proof.
  pose proof (get_dependencies_union Examples.pkg_A (Some ["run"])) as [Hr Hperm].
  assert ((get_dependencies Examples.pkg_A (Some ["run"])).1 = Ok {[ "B" := ∅ ]}) as E
    by (by vm_compute).
  split; [by vm_compute|]. split; [exact E|]. split; [by vm_compute|].
  split; [exact (proj1 (Hr _ E))|].
  apply Hperm. apply Permutation_swap.
Defined.

(** [selfish] lists itself under [test], as a typed descriptor. *)
Lemma get_dependencies_raises_witness :
  (get_dependencies Examples.selfish None).1 = AssertionError
  ∧ (get_dependencies Examples.selfish (Some ["test"])).1 = AssertionError
  ∧ (∃ r, (get_dependencies Examples.selfish (Some ["build"])).1 = Ok r).
Proof.
  pose proof (get_dependencies_raises Examples.selfish None) as [Hall _].
  split; [|split; by vm_compute; eauto].
  apply Hall. exists "S". split; [reflexivity|]. right. exists ∅.
  exists "test", {[ "S" := typed ∅ ]}. split; [by eexists|]. split; by vm_compute.
Defined.

(** Asking [pkg_C], which declares nothing, for [run] leaves an empty
    [run] category behind. *)
Lemma get_dependencies_inserts_category_witness :
  "run" ∈ ["build"; "run"]
  ∧ dependencies Examples.pkg_C !! "run" = None
  ∧ dependencies (get_dependencies Examples.pkg_C (Some ["build"; "run"])).2 !! "run" = Some ∅
  ∧ name (get_dependencies Examples.pkg_C (Some ["build"; "run"])).2 = Some "C".
Proof.
  assert ("run" ∈ ["build"; "run"]) as Hin by (right; left).
  pose proof (get_dependencies_inserts_category Examples.pkg_C ["build"; "run"] "run"
                Hin eq_refl) as (Hrun & _ & _ & Hname & _).
  split; [exact Hin|]. split; [reflexivity|]. split; [exact Hrun|exact Hname].
Defined.

End GetDependenciesExamples.

(** ** Calls of [get_dependencies] do not disturb one another *)

Lemma StronglySorted_filter {A} (R : relation A) (P : A → Prop) `{∀ x, Decision (P x)} l :
  StronglySorted R l → StronglySorted R (filter P l).
Proof.
  induction 1 as [|x l Hl IH Hx]; [constructor|].
  rewrite filter_cons. case_decide; [|done].
  constructor; [done|]. rewrite Forall_forall in *. intros y Hy.
  apply list_elem_of_filter in Hy as [_ Hy]. by apply Hx.
Qed.

Section Padding.
Context {rt : Runtime}.

Lemma padded_refl (m : gmap string entry_set) : padded m m.
Proof. intros c. by left. Qed.

Lemma padded_default (m m' : gmap string entry_set) c :
  padded m m' → default ∅ (m' !! c) = default ∅ (m !! c).
Proof. intros Hp. destruct (Hp c) as [->|[-> ->]]; done. Qed.

Lemma foldl_add_category_fst (g : string → entry_set) (l : list string) :
  ∀ (acc : entry_set) (m : gmap string entry_set),
  (∀ c, default ∅ (m !! c) = g c) →
  (foldl add_category (acc, m) l).1 = foldl (λ a c, a ∪ g c) acc l.
Proof.
  induction l as [|c l IH]; intros acc m Hg; [done|]. simpl.
  unfold add_category at 2, defaultdict_get. simpl.
  specialize (Hg c) as Hc. destruct (m !! c) as [s|] eqn:Hmc; simpl in Hc; subst.
  - by apply IH.
  - rewrite <-Hc. apply IH. intros k. rewrite <-Hg.
    destruct (decide (k = c)) as [->|Hne].
    + by rewrite lookup_insert_eq, Hmc.
    + by rewrite lookup_insert_ne.
Qed.

Lemma foldl_union_filter (g : string → entry_set) (P : string → Prop)
    `{∀ c, Decision (P c)} (l : list string) :
  (∀ c, ¬ P c → g c = ∅) →
  ∀ acc, foldl (λ a c, a ∪ g c) acc l = foldl (λ a c, a ∪ g c) acc (filter P l).
Proof.
  intros Hg. induction l as [|c l IH]; intros acc; [done|].
  rewrite filter_cons. simpl. case_decide as Hc; simpl; [done|].
  by rewrite (Hg c Hc), (right_id_L ∅ (∪)).
Qed.

Lemma sorted_keys_padded (m m' : gmap string entry_set) :
  padded m m' →
  filter (λ c, is_Some (m !! c)) (sorted (keys m')) = sorted (keys m).
Proof.
  intros Hp. apply (Sorted_unique str_le).
  - apply StronglySorted_Sorted, StronglySorted_filter, StronglySorted_merge_sort; apply _.
  - apply Sorted_merge_sort; apply _.
  - rewrite !sorted_Permutation. apply NoDup_Permutation.
    + apply NoDup_filter, NoDup_fst_map_to_list.
    + apply NoDup_fst_map_to_list.
    + intros c. rewrite list_elem_of_filter, !elem_of_keys.
      destruct (Hp c) as [->|[-> ->]]; naive_solver.
Qed.

(** What [get_dependencies] returns does not change when the descriptor
    gets empty sets under more categories, which is all a call of
    [get_dependencies] can do to it. *)
Lemma collect_padded (self self' : PackageDescriptor) (categories : option (list string)) :
  padded (dependencies self) (dependencies self') →
  (collect self' categories).1 = (collect self categories).1.
Proof.
  intros Hp. unfold collect.
  rewrite !(foldl_add_category_fst (λ c, default ∅ (dependencies self !! c)));
    [|done|by intros c; apply padded_default].
  destruct categories as [cs|]; [done|].
  rewrite (foldl_union_filter _ (λ c, is_Some (dependencies self !! c))).
  - by rewrite (sorted_keys_padded _ _ Hp).
  - intros c Hc. destruct (dependencies self !! c) eqn:E; [|done]. destruct Hc. eauto.
Qed.

Lemma collect_pads (self : PackageDescriptor) (categories : option (list string)) :
  padded (dependencies self) (collect self categories).2.
Proof.
  destruct (collect_spec self categories) as (Hm & _ & _).
  intros c. rewrite Hm. destruct (dependencies self !! c); [by left|].
  destruct categories; [|by left]. case_decide; [by right|by left].
Qed.

Lemma get_dependencies_stable (self : PackageDescriptor) (cs cs' : option (list string)) :
  (get_dependencies (get_dependencies self cs).2 cs').1 = (get_dependencies self cs').1.
Proof.
  rewrite !get_dependencies_unfold. simpl.
  rewrite (collect_padded self (with_dependencies self (collect self cs).2)); [done|].
  apply collect_pads.
Qed.

End Padding.

(** ** A program logic for computations on the cache *)

Section Logic.
Implicit Types (P E : cache → Prop).

Lemma triple_ret {A} P E (Q : A → cache → Prop) (a : A) :
  (∀ c, P c → Q a c) → triple P (ret a) Q E.
Proof. intros HQ c r c' HP [= <- <-]. by apply HQ. Qed.

Lemma triple_lift {A} P (r : result A) :
  triple P (lift r) (λ a c, P c ∧ r = Ok a) P.
Proof. intros c r' c' HP [= <- <-]. by destruct r. Qed.

Lemma triple_setitem P E (Q : unit → cache → Prop) key value :
  (∀ c, P c → Q () (<[dep_name key := value]> c)) → triple P (setitem key value) Q E.
Proof. intros HQ c r c' HP [= <- <-]. by apply HQ. Qed.

Lemma triple_bind {A B} P E (R : A → cache → Prop) (Q : B → cache → Prop)
    (m : M A) (f : A → M B) :
  triple P m R E → (∀ a, triple (R a) (f a) Q E) → triple P (bind m f) Q E.
Proof.
  intros Hm Hf c r c' HP. unfold bind.
  destruct (m c) as [[[a|] c1]|] eqn:Hmc; [| |done].
  - intros Hfa. eapply Hf; [|done]. by apply (Hm c (Ok a) c1).
  - intros [= <- <-]. by apply (Hm c AssertionError c1).
Qed.

Lemma triple_conseq {A} P P' E E' (Q Q' : A → cache → Prop) (m : M A) :
  triple P' m Q' E' →
  (∀ c, P c → P' c) → (∀ a c, Q' a c → Q a c) → (∀ c, E' c → E c) →
  triple P m Q E.
Proof.
  intros Hm HP HQ HE c r c' Hc Hr. specialize (Hm c r c' (HP c Hc) Hr).
  destruct r; eauto.
Qed.

(** A fact that does not depend on the cache can be taken out of the
    precondition. *)
Lemma triple_assume {A} P E (Q : A → cache → Prop) (φ : Prop) (m : M A) :
  (φ → triple P m Q E) → triple (λ c, P c ∧ φ) m Q E.
Proof. intros Hm c r c' [HP Hφ]. by apply Hm. Qed.

(** A loop keeps an invariant that may mention the elements gone
    through. *)
Lemma triple_for_each {A B} E (I : list A → B → cache → Prop) (body : B → A → M B)
    (l : list A) :
  (∀ seen x acc, x ∈ l →
     triple (I seen acc) (body acc x) (I (seen ++ [x])) E) →
  ∀ seen acc, triple (I seen acc) (for_each l body acc) (I (seen ++ l)) E.
Proof.
  induction l as [|x l IH]; intros Hbody seen acc; simpl.
  - apply triple_ret. intros c. by rewrite app_nil_r.
  - eapply triple_bind; [apply Hbody; by left|].
    intros acc'. replace (seen ++ x :: l) with ((seen ++ [x]) ++ l) by by rewrite <-app_assoc.
    apply IH. intros ????. apply Hbody. by right.
Qed.

End Logic.

Lemma triple_getitem {P E} {Q : dep_set → cache → Prop} missing key :
  triple (λ c, P c ∧ c !! dep_name key = None) (missing key) Q E →
  (∀ c s, P c → c !! dep_name key = Some s → Q s c) →
  triple P (getitem missing key) Q E.
Proof.
  intros Hmiss Hhit c r c' HP. unfold getitem.
  destruct (c !! dep_name key) as [s|] eqn:Hc.
  - intros [= <- <-]. by apply Hhit.
  - intros Hr. by apply (Hmiss c r c').
Qed.

Lemma elem_of_elements_of (s : dep_set) (d : DependencyDescriptor) :
  d ∈ elements_of s ↔ s !! dep_name d = Some (dep_metadata d).
Proof.
  unfold elements_of. rewrite list_elem_of_fmap. split.
  - intros ([n md] & -> & Hin). by apply elem_of_map_to_list in Hin.
  - intros Hs. exists (dep_name d, dep_metadata d). split; [by destruct d|].
    by apply elem_of_map_to_list.
Qed.

(** ** The cache holds closures *)

Section Soundness.
Context {rt : Runtime}.
Variable w : DependencyWalker.

Lemma getitem_sound missing key :
  sound w missing →
  triple (cache_ok w) (getitem missing key)
    (λ s c, cache_ok w c ∧ closure_of w (dep_name key) s) (cache_ok w).
Proof.
  intros Hs. apply triple_getitem.
  - eapply triple_conseq; [apply Hs|naive_solver..].
  - intros c s Hc Hk. split; [done|]. by apply (Hc _ _ Hk).
Qed.

Lemma union_closure_nil : union_closure w [] ∅.
Proof.
  intros m. rewrite lookup_empty. split.
  - by intros [? ?].
  - intros (dep & Hd & _). by apply elem_of_nil in Hd.
Qed.

Lemma union_closure_snoc seen dep total s :
  union_closure w seen total → closure_of w (dep_name dep) s →
  union_closure w (seen ++ [dep]) (total ∪ s).
Proof.
  intros Ht Hs m. rewrite lookup_union_is_Some, (Ht m), (Hs m). split.
  - intros [(d & Hd & ?)|[? ?]].
    + exists d. split; [|done]. apply elem_of_app. by left.
    + exists dep. split; [|done]. apply elem_of_app. right. by left.
  - intros (d & Hd & Hk & Hr). apply elem_of_app in Hd as [Hd|Hd].
    + left. eauto.
    + apply list_elem_of_singleton in Hd as ->. by right.
Qed.

Lemma union_of_closures_sound missing deps :
  sound w missing →
  triple (cache_ok w) (union_of_closures missing deps)
    (λ s c, cache_ok w c ∧ union_closure w deps s) (cache_ok w).
Proof.
  intros Hs. unfold union_of_closures.
  pose (I := λ (seen : list DependencyDescriptor) (total : dep_set) (c : cache),
          cache_ok w c ∧ union_closure w seen total).
  eapply (triple_conseq _ (I [] ∅) _ _ _ (I ([] ++ deps))).
  - apply triple_for_each. intros seen dep total _.
    apply triple_assume. intros Htotal.
    eapply triple_bind; [by apply (getitem_sound missing dep)|].
    intros s. apply triple_ret. intros c [Hc Hcl]. split; [done|].
    by apply union_closure_snoc.
  - intros c Hc. split; [done|]. apply union_closure_nil.
  - done.
  - done.
Qed.

Lemma closure_of_unknown key : ¬ known w key → closure_of w key ∅.
Proof. intros Hk m. rewrite lookup_empty. split; [by intros [? ?]|naive_solver]. Qed.

Lemma cache_ok_insert c key s :
  cache_ok w c → closure_of w key s → cache_ok w (<[key := s]> c).
Proof.
  intros Hc Hs k s'. destruct (decide (key = k)) as [->|Hne].
  - rewrite lookup_insert_eq. by intros [= <-].
  - rewrite lookup_insert_ne by done. apply Hc.
Qed.

Lemma collected_closure key ds acc :
  descriptors_by_name w !! Some key = Some ds →
  collected w key ds acc → closure_of w key acc.
Proof.
  intros Hds Hacc m. rewrite (Hacc m). split.
  - intros [->|(d & n & e & Hd & Hl & Hn & Hr)].
    + split; [by eexists|apply rtc_refl].
    + split; [by eexists|]. eapply rtc_l; [|done]. split; [|done]. eauto 10.
  - intros [_ Hr]. apply rtc_inv in Hr as [->|(n & [(ds' & d & e & Hds' & Hd & Hl) Hn] & Hr)].
    + by left.
    + right. simplify_eq. eauto 10.
Qed.

Lemma missing_sound fuel : sound w (__missing__ fuel w).
Proof.
  induction fuel as [|fuel IH]; intros key; [by intros ???|]. simpl.
  eapply triple_bind with
    (R := λ s c, cache_ok w c ∧ closure_of w (dep_name key) s).
  - destruct (descriptors_by_name w !! Some (dep_name key)) as [ds|] eqn:Hds.
    + pose (I := λ (seen : list PackageDescriptor) (acc : dep_set) (c : cache),
              cache_ok w c ∧ collected w (dep_name key) seen acc).
      eapply (triple_conseq _ (I [] (set_add key ∅)) _ _ _ (I ([] ++ ds))).
      * apply triple_for_each. intros seen d acc Hd.
        apply triple_assume. intros Hacc.
        eapply triple_bind; [apply triple_lift|]. intros deps. simpl.
        apply (triple_assume (cache_ok w)). intros Hdeps.
        eapply triple_bind; [by apply union_of_closures_sound|].
        intros s. apply triple_ret. intros c [Hc Hs]. split; [done|].
        pose proof (get_dependencies_Ok_names d (categories w) deps Hdeps) as Hnames.
        intros m. rewrite lookup_union_is_Some, (Hacc m), (Hs m). split.
        -- intros [[->|(d' & n & e & Hd' & ?)]|(dep & Hdep & Hk & Hr)].
           ++ by left.
           ++ right. exists d', n, e. split; [|done]. apply elem_of_app. by left.
           ++ right. apply elem_of_elements_of in Hdep.
              destruct (proj1 (Hnames (dep_name dep))) as [e He]; [by eexists|].
              exists d, (dep_name dep), e. split_and!; try done.
              apply elem_of_app. right. by left.
        -- intros [->|(d' & n & e & Hd' & Hl & Hk & Hr)]; [by left; left|].
           apply elem_of_app in Hd' as [Hd'|Hd'].
           ++ left. right. eauto 10.
           ++ apply list_elem_of_singleton in Hd' as ->. right.
              destruct (proj2 (Hnames n)) as [md Hmd]; [by eexists|].
              exists {| dep_name := n; dep_metadata := md |}. split; [|done].
              by apply elem_of_elements_of.
      * intros c Hc. split; [done|]. intros m. unfold set_add.
        rewrite lookup_empty, lookup_insert_is_Some', lookup_empty. split.
        -- intros [->|[? ?]]; [by left|done].
        -- intros [->|(d & n & e & Hd & _)]; [by left|]. by apply elem_of_nil in Hd.
      * intros s c [Hc Hs]. split; [done|]. by eapply collected_closure.
      * done.
    + apply triple_ret. intros c Hc. split; [done|].
      apply closure_of_unknown. unfold known. rewrite Hds. by intros [? ?].
  - intros s. apply (triple_assume (cache_ok w)). intros Hs.
    eapply triple_bind with (R := λ _ c, cache_ok w c).
    + eapply triple_conseq; [apply triple_setitem with (Q := λ _ c, cache_ok w c)|done..].
      intros c Hc. by apply cache_ok_insert.
    + intros _. by apply triple_ret.
Qed.

End Soundness.

(** ** Closures returned by the walker *)

Section WalkerStates.
Context {rt : Runtime}.

Lemma get_recursive_dependencies_inv (w : DependencyWalker) fuel deps r w' :
  get_recursive_dependencies fuel w deps = Some (r, w') →
  ∃ c', union_of_closures (__missing__ fuel w) deps (dependency_cache w) = Some (r, c')
        ∧ w' = with_cache w c'.
Proof.
  unfold get_recursive_dependencies.
  destruct (union_of_closures _ _ _) as [[r' c']|]; [|done].
  intros [= <- <-]. eauto.
Qed.

Lemma walker_state_cache_ok (w : DependencyWalker) :
  walker_state w → cache_ok w (dependency_cache w).
Proof.
  induction 1 as [ds cs|w fuel deps r w' _ IH Hcall].
  - intros k s Hk. simpl in Hk. by rewrite lookup_empty in Hk.
  - apply get_recursive_dependencies_inv in Hcall as (c' & Hc' & ->).
    pose proof (union_of_closures_sound w _ deps (missing_sound w fuel) _ _ _ IH Hc') as Hpost.
    destruct r; [apply Hpost|exact Hpost].
Qed.

Lemma reaches_known (w : DependencyWalker) k m : known w k → reaches w k m → known w m.
Proof. intros Hk Hr. induction Hr as [|a b c [_ Hb] _ IH]; auto. Qed.

Lemma get_recursive_dependencies_union_closure (w : DependencyWalker) fuel deps s w' :
  walker_state w →
  get_recursive_dependencies fuel w deps = Some (Ok s, w') →
  union_closure w deps s.
Proof.
  intros Hw Hcall. apply get_recursive_dependencies_inv in Hcall as (c' & Hc' & ->).
  apply (union_of_closures_sound w _ deps (missing_sound w fuel) _ _ _
           (walker_state_cache_ok w Hw) Hc').
Qed.

(** X2: a dependency whose name is not that of a known package has the
    empty closure, and asking for it raises nothing; the closure of a
    known name is the name itself together with the closures of the known
    names that the descriptors registered under it list in the walker's
    categories; every name in a closure is a known package. *)
Theorem get_recursive_dependencies_closure (w : DependencyWalker) :
  walker_state w →
  (∀ fuel dep, ¬ known w (dep_name dep) →
     ∃ w', get_recursive_dependencies (S fuel) w [dep] = Some (Ok ∅, w'))
  ∧ (∀ fuel deps s w',
       get_recursive_dependencies fuel w deps = Some (Ok s, w') →
       (∀ m, is_Some (s !! m) ↔
             ∃ dep, dep ∈ deps ∧ known w (dep_name dep) ∧ reaches w (dep_name dep) m)
       ∧ (∀ m, is_Some (s !! m) → known w m))
  ∧ (∀ fuel dep s w',
       known w (dep_name dep) →
       get_recursive_dependencies fuel w [dep] = Some (Ok s, w') →
       ∀ m, is_Some (s !! m) ↔
            m = dep_name dep ∨
            ∃ ds d n e, descriptors_by_name w !! Some (dep_name dep) = Some ds ∧ d ∈ ds ∧
                        listed d (categories w) n e ∧ known w n ∧ reaches w n m).
Proof.
  intros Hw. pose proof (walker_state_cache_ok w Hw) as Hc.
  assert (∀ fuel deps s w',
       get_recursive_dependencies fuel w deps = Some (Ok s, w') →
       union_closure w deps s) as Hsound.
  { intros fuel deps s w' Hcall. by eapply get_recursive_dependencies_union_closure. }
  split_and!.
  - intros fuel dep Hk. unfold get_recursive_dependencies, union_of_closures. simpl.
    unfold bind at 1. unfold bind at 1. unfold getitem.
    destruct (dependency_cache w !! dep_name dep) as [s|] eqn:Hs.
    + assert (s = ∅) as ->.
      { apply map_eq. intros m. rewrite lookup_empty. apply eq_None_not_Some.
        intros Hm. apply (Hc _ _ Hs m) in Hm as [? _]. done. }
      eexists. unfold ret. by rewrite (left_id_L ∅ (∪)).
    + simpl. unfold known in Hk. unfold bind, ret, setitem.
      destruct (descriptors_by_name w !! Some (dep_name dep)) eqn:Hd.
      { destruct Hk. by eexists. }
      eexists. by rewrite (left_id_L ∅ (∪)).
  - intros fuel deps s w' Hcall. pose proof (Hsound _ _ _ _ Hcall) as Hs.
    split; [exact Hs|]. intros m Hm. apply Hs in Hm as (dep & _ & Hk & Hr).
    by eapply reaches_known.
  - intros fuel dep s w' Hk Hcall m. rewrite (Hsound _ _ _ _ Hcall m). split.
    + intros (dep' & Hin & _ & Hr). apply list_elem_of_singleton in Hin as ->.
      apply rtc_inv in Hr as [->|(n & [(ds & d & e & Hds & Hd & Hl) Hn] & Hr)]; [by left|].
      right. eauto 10.
    + intros [->|(ds & d & n & e & Hds & Hd & Hl & Hn & Hr)].
      * exists dep. split; [by left|]. split; [done|apply rtc_refl].
      * exists dep. split; [by left|]. split; [done|].
        eapply rtc_l; [|done]. split; [|done]. eauto 10.
Qed.

End WalkerStates.

(** ** Memoization *)

Section Memo.
Context {rt : Runtime}.
Variable w : DependencyWalker.

(** What [__missing__] returns it has stored under the key. *)
Lemma missing_stores fuel key :
  triple (λ _, True) (__missing__ fuel w key)
    (λ s c, c !! dep_name key = Some s) (λ _, True).
Proof.
  destruct fuel as [|fuel]; [by intros ???|]. simpl.
  eapply triple_bind with (R := λ _ _, True).
  - intros c r c' _ _. by destruct r.
  - intros s. eapply triple_bind with (R := λ _ c, c !! dep_name key = Some s).
    + apply triple_setitem. intros c _. apply lookup_insert_eq.
    + intros _. by apply triple_ret.
Qed.

Lemma getitem_stores fuel key :
  triple (λ _, True) (getitem (__missing__ fuel w) key)
    (λ s c, c !! dep_name key = Some s) (λ _, True).
Proof.
  apply triple_getitem.
  - eapply triple_conseq; [apply missing_stores|done..].
  - done.
Qed.

Lemma union_of_closures_extends c0 missing deps :
  extends c0 missing →
  triple (λ c, c0 ⊆ c) (union_of_closures missing deps) (λ _ c, c0 ⊆ c) (λ c, c0 ⊆ c).
Proof.
  intros Hm. unfold union_of_closures.
  pose (I := λ (_ : list DependencyDescriptor) (_ : dep_set) (c : cache), c0 ⊆ c).
  eapply (triple_conseq _ (I [] ∅) _ _ _ (I ([] ++ deps))); [|done..].
  apply triple_for_each. intros seen dep total _.
  eapply triple_bind with (R := λ _ c, c0 ⊆ c).
  - apply triple_getitem; [apply Hm|done].
  - intros s. by apply triple_ret.
Qed.

Lemma missing_extends fuel : ∀ c0, extends c0 (__missing__ fuel w).
Proof.
  induction fuel as [|fuel IH]; intros c0 key; [by intros ???|]. simpl.
  eapply triple_conseq with (P' := λ c, c0 ⊆ c ∧ c0 !! dep_name key = None)
    (Q' := λ _ c, c0 ⊆ c) (E' := λ c, c0 ⊆ c); [|by intros c [? ?]; split;
      [|eapply lookup_weaken_None]|done..].
  apply triple_assume. intros Hkey.
  eapply triple_bind with (R := λ _ c, c0 ⊆ c).
  - destruct (descriptors_by_name w !! Some (dep_name key)) as [ds|]; [|by apply triple_ret].
    pose (I := λ (_ : list PackageDescriptor) (_ : dep_set) (c : cache), c0 ⊆ c).
    eapply (triple_conseq _ (I [] (set_add key ∅)) _ _ _ (I ([] ++ ds))); [|done..].
    apply triple_for_each. intros seen d acc _.
    eapply triple_bind; [apply triple_lift|]. intros deps. simpl.
    apply (triple_assume (λ c, c0 ⊆ c)). intros _.
    eapply triple_bind with (R := λ _ c, c0 ⊆ c).
    + by apply union_of_closures_extends.
    + intros s. by apply triple_ret.
  - intros s. eapply triple_bind with (R := λ _ c, c0 ⊆ c).
    + apply triple_setitem. intros c Hc. by apply insert_subseteq_r.
    + intros _. by apply triple_ret.
Qed.

End Memo.

Section Memoized.
Context {rt : Runtime}.

Lemma get_recursive_dependencies_extends (w : DependencyWalker) fuel deps r w' :
  get_recursive_dependencies fuel w deps = Some (r, w') →
  dependency_cache w ⊆ dependency_cache w'.
Proof.
  intros Hcall. apply get_recursive_dependencies_inv in Hcall as (c' & Hc' & ->).
  pose proof (union_of_closures_extends (dependency_cache w) _ deps
                (missing_extends w fuel _) _ _ _ (reflexivity _) Hc') as Hpost.
  by destruct r.
Qed.

Lemma get_recursive_dependencies_cached (w : DependencyWalker) fuel dep s :
  dependency_cache w !! dep_name dep = Some s →
  get_recursive_dependencies fuel w [dep] = Some (Ok s, w).
Proof.
  intros Hs. unfold get_recursive_dependencies, union_of_closures. simpl.
  unfold bind, getitem, ret. rewrite Hs, (left_id_L ∅ (∪)). by destruct w.
Qed.

Lemma get_recursive_dependencies_caches (w : DependencyWalker) fuel dep s w' :
  get_recursive_dependencies fuel w [dep] = Some (Ok s, w') →
  dependency_cache w' !! dep_name dep = Some s.
Proof.
  intros Hcall. apply get_recursive_dependencies_inv in Hcall as (c' & Hc' & ->).
  unfold union_of_closures in Hc'. simpl in Hc'. unfold bind at 1 in Hc'.
  unfold bind at 1 in Hc'.
  destruct (getitem _ _ _) as [[[s0|] c0]|] eqn:Hg; [|done..].
  pose proof (getitem_stores w fuel dep _ _ _ I Hg) as Hstored. simpl in Hstored.
  unfold ret in Hc'. rewrite (left_id_L ∅ (∪)) in Hc'. by simplify_eq.
Qed.

(** X3: once a call for a name has returned, every later call for that
    name on the walker, with whatever descriptor of that name and also
    with no nesting depth left for [__missing__], returns the same set and
    leaves the walker as it is; calls for other dependencies in between do
    not change that. *)
Theorem get_recursive_dependencies_memoized (w : DependencyWalker) fuel dep s w' :
  get_recursive_dependencies fuel w [dep] = Some (Ok s, w') →
  (∀ dep' fuel', dep_name dep' = dep_name dep →
     get_recursive_dependencies fuel' w' [dep'] = Some (Ok s, w'))
  ∧ (∀ fuel2 deps2 r2 w2,
       get_recursive_dependencies fuel2 w' deps2 = Some (r2, w2) →
       ∀ dep' fuel', dep_name dep' = dep_name dep →
         get_recursive_dependencies fuel' w2 [dep'] = Some (Ok s, w2)).
Proof.
  intros Hcall. apply get_recursive_dependencies_caches in Hcall. split.
  - intros dep' fuel' Hn. apply get_recursive_dependencies_cached. by rewrite Hn.
  - intros fuel2 deps2 r2 w2 Hcall2 dep' fuel' Hn.
    apply get_recursive_dependencies_cached. rewrite Hn.
    eapply lookup_weaken; [done|]. by eapply get_recursive_dependencies_extends.
Qed.

End Memoized.

(** ** The index a walker is built with *)

Section Index.
Context {rt : Runtime}.

Lemma eq_refl_descriptor (d : PackageDescriptor) : __eq__ d d = true.
Proof. unfold __eq__. by rewrite !bool_decide_eq_true_2. Qed.

Lemma elem_of_descriptors_add (d e : PackageDescriptor) l :
  e ∈ descriptors_add d l ↔ e ∈ l ∨ (e = d ∧ existsb (λ e, __eq__ e d) l = false).
Proof.
  unfold descriptors_add. destruct (existsb _ l) eqn:Hex.
  - naive_solver.
  - rewrite elem_of_app, list_elem_of_singleton. naive_solver.
Qed.

Lemma existsb_eq_true (d : PackageDescriptor) l :
  existsb (λ e, __eq__ e d) l = true ↔ ∃ e, e ∈ l ∧ __eq__ e d = true.
Proof.
  rewrite existsb_exists. setoid_rewrite <-list_elem_of_In. done.
Qed.

Lemma descriptors_add_covers (d : PackageDescriptor) l :
  ∃ e, e ∈ descriptors_add d l ∧ __eq__ e d = true.
Proof.
  destruct (existsb (λ e, __eq__ e d) l) eqn:Hex.
  - apply existsb_eq_true in Hex as (e & He & Heq). exists e. split; [|done].
    apply elem_of_descriptors_add. by left.
  - exists d. split; [|apply eq_refl_descriptor].
    apply elem_of_descriptors_add. by right.
Qed.

Lemma descriptors_add_distinct (d : PackageDescriptor) l :
  distinct l → distinct (descriptors_add d l).
Proof.
  intros Hl. unfold descriptors_add. destruct (existsb _ l) eqn:Hex; [done|].
  intros i j e1 e2 Hi Hj Hij.
  destruct (decide (j < length l)) as [Hjl|Hjl].
  - rewrite lookup_app_l in Hi by lia. rewrite lookup_app_l in Hj by lia. eauto.
  - rewrite lookup_app_r in Hj by lia.
    apply list_lookup_singleton_Some in Hj as [Hj ->].
    rewrite lookup_app_l in Hi by lia.
    destruct (__eq__ e1 e2) eqn:Heq; [|done].
    assert (existsb (λ e, __eq__ e e2) l = true) as Hex'; [|congruence].
    apply existsb_eq_true. exists e1. split; [|done]. by eapply list_elem_of_lookup_2.
Qed.

Lemma index_spec (ds : list PackageDescriptor) (cs : option (list string)) :
  (∀ k l d, descriptors_by_name (walker_init ds cs) !! k = Some l → d ∈ l →
            name d = k ∧ d ∈ ds)
  ∧ (∀ d, d ∈ ds →
       ∃ l e, descriptors_by_name (walker_init ds cs) !! name d = Some l ∧ e ∈ l ∧
              __eq__ e d = true)
  ∧ (∀ k l, descriptors_by_name (walker_init ds cs) !! k = Some l → distinct l).
Proof.
  induction ds as [|d ds IH] using rev_ind.
  - simpl. split_and!.
    + intros k l d Hk. by rewrite lookup_empty in Hk.
    + intros d Hd. by apply elem_of_nil in Hd.
    + intros k l Hk. by rewrite lookup_empty in Hk.
  - simpl in *. rewrite foldl_snoc.
    set (m := foldl _ ∅ ds) in *. destruct IH as (IH1 & IH2 & IH3).
    split_and!.
    + intros k l e Hk He. destruct (decide (name d = k)) as [<-|Hne].
      * rewrite lookup_insert_eq in Hk. injection Hk as <-.
        apply elem_of_descriptors_add in He as [He|[-> _]].
        -- destruct (m !! name d) as [l0|] eqn:Hl0; simpl in He;
             [|by apply elem_of_nil in He].
           destruct (IH1 _ _ _ Hl0 He) as [? ?]. split; [done|].
           apply elem_of_app. by left.
        -- split; [done|]. apply elem_of_app. right. by left.
      * rewrite lookup_insert_ne in Hk by done.
        destruct (IH1 _ _ _ Hk He) as [? ?]. split; [done|]. apply elem_of_app. by left.
    + intros e He. apply elem_of_app in He as [He|He].
      * destruct (IH2 e He) as (l & e' & Hl & He' & Heq).
        destruct (decide (name d = name e)) as [Hn|Hn].
        -- rewrite <-Hn, lookup_insert_eq. eexists _, e'. split; [done|].
           split; [|done]. apply elem_of_descriptors_add. left.
           rewrite Hn, Hl. done.
        -- rewrite lookup_insert_ne by done. eauto.
      * apply list_elem_of_singleton in He as ->. rewrite lookup_insert_eq.
        destruct (descriptors_add_covers d (default [] (m !! name d))) as (e & ? & ?).
        eauto.
    + intros k l Hk. destruct (decide (name d = k)) as [<-|Hne].
      * rewrite lookup_insert_eq in Hk. injection Hk as <-.
        apply descriptors_add_distinct.
        destruct (m !! name d) as [l0|] eqn:Hl0; simpl; [by eapply IH3|].
        intros i j e1 e2 Hi. by rewrite lookup_nil in Hi.
      * rewrite lookup_insert_ne in Hk by done. by eapply IH3.
Qed.

(** X1: a new walker has an empty cache and the categories it was given;
    every descriptor it registers is one of those given and is registered
    under its own name; every descriptor given has an equal one (by
    [__eq__]) registered under its name; and no two descriptors registered
    under one name are equal. *)
Theorem walker_init_registers (descriptors : list PackageDescriptor)
    (cs : option (list string)) :
  categories (walker_init descriptors cs) = cs
  ∧ dependency_cache (walker_init descriptors cs) = ∅
  ∧ (∀ k l d, descriptors_by_name (walker_init descriptors cs) !! k = Some l → d ∈ l →
              name d = k ∧ d ∈ descriptors)
  ∧ (∀ d, d ∈ descriptors →
       ∃ l e, descriptors_by_name (walker_init descriptors cs) !! name d = Some l ∧
              e ∈ l ∧ __eq__ e d = true)
  ∧ (∀ k l, descriptors_by_name (walker_init descriptors cs) !! k = Some l → distinct l).
Proof. split; [done|]. split; [done|]. apply index_spec. Qed.

(** The descriptors and categories of a walker never change. *)
Lemma walker_state_init (w : DependencyWalker) :
  walker_state w →
  ∃ ds cs, descriptors_by_name w = descriptors_by_name (walker_init ds cs)
           ∧ categories w = cs.
Proof.
  induction 1 as [ds cs|w fuel deps r w' _ IH Hcall]; [by eauto|].
  apply get_recursive_dependencies_inv in Hcall as (c' & _ & ->). exact IH.
Qed.

Lemma walker_state_registered (w : DependencyWalker) k l d :
  walker_state w → descriptors_by_name w !! k = Some l → d ∈ l → name d = k.
Proof.
  intros Hw Hk Hd. destruct (walker_state_init w Hw) as (ds & cs & Hby & _).
  rewrite Hby in Hk. by destruct (proj1 (index_spec ds cs) _ _ _ Hk Hd).
Qed.

End Index.

(** ** Cycles of dependencies *)

Section Cycles.
Context {rt : Runtime}.
Variable w : DependencyWalker.

Lemma cyclic_step key :
  cyclic w key → ∃ n, edge w key n ∧ cyclic w n.
Proof.
  intros Hc. unfold cyclic in Hc. inversion Hc as [? ? He|? n ? He Ht]; subst.
  - exists key. split; [done|]. by apply tc_once.
  - exists n. split; [done|]. by eapply tc_r.
Qed.

Lemma union_of_closures_cyclic missing deps :
  (∀ key, triple (cycle_free w) (missing key)
            (λ _ c, cycle_free w c ∧ ¬ cyclic w (dep_name key)) (cycle_free w)) →
  triple (cycle_free w) (union_of_closures missing deps)
    (λ _ c, cycle_free w c ∧ ∀ dep, dep ∈ deps → ¬ cyclic w (dep_name dep))
    (cycle_free w).
Proof.
  intros Hm. unfold union_of_closures.
  pose (I := λ (seen : list DependencyDescriptor) (_ : dep_set) (c : cache),
          cycle_free w c ∧ ∀ dep, dep ∈ seen → ¬ cyclic w (dep_name dep)).
  eapply (triple_conseq _ (I [] ∅) _ _ _ (I ([] ++ deps))).
  - apply triple_for_each. intros seen dep total _.
    apply triple_assume. intros Hseen.
    eapply triple_bind with
      (R := λ _ c, cycle_free w c ∧ ¬ cyclic w (dep_name dep)).
    + apply triple_getitem.
      * eapply triple_conseq; [apply Hm|naive_solver..].
      * intros c s Hc Hs. split; [done|]. intros Hcyc. by rewrite (Hc _ Hcyc) in Hs.
    + intros s. apply triple_ret. intros c [Hc Hdep]. split; [done|].
      intros dep' Hin. apply elem_of_app in Hin as [Hin|Hin]; [by apply Hseen|].
      by apply list_elem_of_singleton in Hin as ->.
  - intros c Hc. split; [done|]. intros dep Hin. by apply elem_of_nil in Hin.
  - done.
  - done.
Qed.

Lemma missing_cyclic fuel key :
  triple (cycle_free w) (__missing__ fuel w key)
    (λ _ c, cycle_free w c ∧ ¬ cyclic w (dep_name key)) (cycle_free w).
Proof.
  revert key. induction fuel as [|fuel IH]; intros key; [by intros ???|]. simpl.
  eapply triple_bind with
    (R := λ _ c, cycle_free w c ∧ ¬ cyclic w (dep_name key)).
  - destruct (descriptors_by_name w !! Some (dep_name key)) as [ds|] eqn:Hds.
    + pose (I := λ (seen : list PackageDescriptor) (_ : dep_set) (c : cache),
              cycle_free w c ∧
              ∀ d n e, d ∈ seen → listed d (categories w) n e → ¬ cyclic w n).
      eapply (triple_conseq _ (I [] (set_add key ∅)) _ _ _ (I ([] ++ ds))).
      * apply triple_for_each. intros seen d acc Hd.
        apply triple_assume. intros Hseen.
        eapply triple_bind; [apply triple_lift|]. intros deps. simpl.
        apply (triple_assume (cycle_free w)). intros Hdeps.
        eapply triple_bind; [by apply union_of_closures_cyclic|].
        intros s. apply triple_ret. intros c [Hc Hs]. split; [done|].
        intros d' n e Hin Hl. apply elem_of_app in Hin as [Hin|Hin]; [by eapply Hseen|].
        apply list_elem_of_singleton in Hin as ->.
        pose proof (get_dependencies_Ok_names d (categories w) deps Hdeps) as Hnames.
        destruct (proj2 (Hnames n)) as [md Hmd]; [by eexists|].
        apply (Hs {| dep_name := n; dep_metadata := md |}).
        by apply elem_of_elements_of.
      * intros c Hc. split; [done|]. intros d n e Hin. by apply elem_of_nil in Hin.
      * intros s c [Hc Hs]. split; [done|]. intros Hcyc.
        apply cyclic_step in Hcyc as (n & [(ds' & d & e & Hds' & Hd & Hl) _] & Hn).
        simplify_eq. by eapply Hs.
      * done.
    + apply triple_ret. intros c Hc. split; [done|]. intros Hcyc.
      apply cyclic_step in Hcyc as (n & [(ds' & d & e & Hds' & _) _] & _). congruence.
  - intros s. apply (triple_assume (cycle_free w)). intros Hkey.
    eapply triple_bind with (R := λ _ c, cycle_free w c ∧ ¬ cyclic w (dep_name key)).
    + apply triple_setitem. intros c Hc. split; [|done]. intros n Hn.
      rewrite lookup_insert_ne; [by apply Hc|]. by intros <-.
    + intros _. by apply triple_ret.
Qed.

Lemma union_of_closures_no_error missing deps :
  (∀ key, triple (λ _, True) (missing key) (λ _ _, True) (λ _, False)) →
  triple (λ _, True) (union_of_closures missing deps) (λ _ _, True) (λ _, False).
Proof.
  intros Hm. unfold union_of_closures.
  pose (I := λ (_ : list DependencyDescriptor) (_ : dep_set) (_ : cache), True).
  eapply (triple_conseq _ (I [] ∅) _ (λ _, False) _ (I ([] ++ deps))); [|done..].
  apply triple_for_each. intros seen dep total _.
  eapply triple_bind with (R := λ _ _, True).
  - apply triple_getitem; [|done]. eapply triple_conseq; [apply Hm|done..].
  - intros s. by apply triple_ret.
Qed.

Lemma missing_no_error fuel key :
  ¬ self_listing w →
  triple (λ _, True) (__missing__ fuel w key) (λ _ _, True) (λ _, False).
Proof.
  intros Hself. revert key. induction fuel as [|fuel IH]; intros key; [by intros ???|].
  simpl. eapply triple_bind with (R := λ _ _, True).
  - destruct (descriptors_by_name w !! Some (dep_name key)) as [ds|] eqn:Hds;
      [|by apply triple_ret].
    pose (I := λ (_ : list PackageDescriptor) (_ : dep_set) (_ : cache), True).
    eapply (triple_conseq _ (I [] (set_add key ∅)) _ (λ _, False) _ (I ([] ++ ds)));
      [|done..].
    apply triple_for_each. intros seen d acc Hd.
    eapply triple_bind with (R := λ _ _, True).
    + intros c r c' _ [= <- <-].
      destruct (get_dependencies d (categories w)).1 eqn:Hg; [done|].
      apply Hself. by exists (Some (dep_name key)), ds, d.
    + intros deps. eapply triple_bind with (R := λ _ _, True).
      * by apply union_of_closures_no_error.
      * intros s. by apply triple_ret.
  - intros s. eapply triple_bind with (R := λ _ _, True).
    + by apply triple_setitem.
    + intros _. by apply triple_ret.
Qed.

End Cycles.

Section CyclicCalls.
Context {rt : Runtime}.

Lemma walker_state_cycle_free (w : DependencyWalker) :
  walker_state w → cycle_free w (dependency_cache w).
Proof.
  induction 1 as [ds cs|w fuel deps r w' _ IH Hcall].
  - intros n _. apply lookup_empty.
  - apply get_recursive_dependencies_inv in Hcall as (c' & Hc' & ->).
    pose proof (union_of_closures_cyclic w _ deps (missing_cyclic w fuel) _ _ _ IH Hc')
      as Hpost.
    destruct r; [apply Hpost|exact Hpost].
Qed.

Lemma self_listingb_complete (w : DependencyWalker) :
  self_listing w → self_listingb w = true.
Proof.
  intros (k & ds & d & Hk & Hd & Hg). unfold self_listingb.
  apply existsb_exists. exists (k, ds). split.
  - apply list_elem_of_In. by apply elem_of_map_to_list.
  - apply existsb_exists. exists d. split; [by apply list_elem_of_In|].
    simpl. by rewrite Hg.
Qed.

(** X4: asking for a dependency that lies on a cycle of known packages
    never returns a set, whatever the nesting depth allowed: the walker
    stores a closure only after the expansion below it has returned, so
    the expansion of the name is entered again before there is an entry
    for it.  When no registered descriptor lists itself, the call does not
    come back at all (in Python: [RecursionError]). *)
Theorem cyclic_never_returns (w : DependencyWalker) (deps : list DependencyDescriptor)
    (dep : DependencyDescriptor) :
  walker_state w → dep ∈ deps → cyclic w (dep_name dep) →
  (∀ fuel s w', get_recursive_dependencies fuel w deps ≠ Some (Ok s, w'))
  ∧ (self_listingb w = false →
     diverges (λ fuel, get_recursive_dependencies fuel w deps)).
Proof.
  intros Hw Hin Hcyc.
  assert (∀ fuel s w', get_recursive_dependencies fuel w deps ≠ Some (Ok s, w')) as Hno.
  { intros fuel s w' Hcall.
    apply get_recursive_dependencies_inv in Hcall as (c' & Hc' & ->).
    pose proof (union_of_closures_cyclic w _ deps (missing_cyclic w fuel) _ _ _
                  (walker_state_cycle_free w Hw) Hc') as [_ Hpost].
    by apply (Hpost dep). }
  split; [exact Hno|]. intros Hself fuel.
  destruct (get_recursive_dependencies fuel w deps) as [[[s|] w']|] eqn:Hcall; [| |done].
  - by destruct (Hno fuel s w').
  - apply get_recursive_dependencies_inv in Hcall as (c' & Hc' & ->).
    assert (¬ self_listing w) as Hns.
    { intros Hs. apply self_listingb_complete in Hs. congruence. }
    destruct (union_of_closures_no_error _ deps
                (λ key, missing_no_error w fuel key Hns) _ _ _ I Hc').
Qed.

End CyclicCalls.

Section CyclicExample.
#[local] Existing Instance Examples.simple_runtime.

Lemma cyclic_never_returns_witness :
  walker_state Examples.cyclic_walker
  ∧ cyclic Examples.cyclic_walker "A"
  ∧ self_listingb Examples.cyclic_walker = false
  ∧ diverges (λ fuel, get_recursive_dependencies fuel Examples.cyclic_walker
                        [Examples.dep "A"]).
Proof.
  assert (edge Examples.cyclic_walker "A" "B") as HAB.
  { split; [|by eexists]. exists [Examples.cyc_A], Examples.cyc_A, bare.
    split; [by vm_compute|]. split; [by left|].
    exists "run", {[ "B" := bare ]}. split; [by eexists|]. split; by vm_compute. }
  assert (edge Examples.cyclic_walker "B" "A") as HBA.
  { split; [|by eexists]. exists [Examples.cyc_B], Examples.cyc_B, bare.
    split; [by vm_compute|]. split; [by left|].
    exists "run", {[ "A" := bare ]}. split; [by eexists|]. split; by vm_compute. }
  assert (cyclic Examples.cyclic_walker "A") as Hcyc.
  { eapply tc_l; [exact HAB|]. by apply tc_once. }
  pose proof (cyclic_never_returns Examples.cyclic_walker [Examples.dep "A"]
                (Examples.dep "A") (ws_init _ _) (list_elem_of_here _ _) Hcyc) as [_ Hdiv].
  split; [apply ws_init|]. split; [exact Hcyc|]. split; [by vm_compute|].
  apply Hdiv. by vm_compute.
Defined.

End CyclicExample.

(** ** Without a cycle every call comes back *)

Section Returns.

Lemma returns_ret {A} (a : A) (Q : A → Prop) : Q a → returns (ret a) Q.
Proof. intros HQ c. by exists a, c. Qed.

Lemma returns_lift {A} (r : result A) (a : A) : r = Ok a → returns (lift r) (λ a', a' = a).
Proof. intros -> c. by exists a, c. Qed.

Lemma returns_setitem key value : returns (setitem key value) (λ _, True).
Proof. intros c. by eexists (), _. Qed.

Lemma returns_bind {A B} (m : M A) (f : A → M B) (R : A → Prop) (Q : B → Prop) :
  returns m R → (∀ a, R a → returns (f a) Q) → returns (bind m f) Q.
Proof.
  intros Hm Hf c. destruct (Hm c) as (a & c1 & Hmc & Ha).
  destruct (Hf a Ha c1) as (b & c2 & Hfc & Hb).
  exists b, c2. unfold bind. by rewrite Hmc.
Qed.

Lemma returns_for_each {A B} (l : list A) (body : B → A → M B) :
  (∀ x acc, x ∈ l → returns (body acc x) (λ _, True)) →
  ∀ acc, returns (for_each l body acc) (λ _, True).
Proof.
  induction l as [|x l IH]; intros Hbody acc; simpl.
  - by apply returns_ret.
  - eapply returns_bind; [apply Hbody; by left|].
    intros acc' _. apply IH. intros ???. apply Hbody. by right.
Qed.

Lemma returns_getitem missing key :
  returns (missing key) (λ _, True) → returns (getitem missing key) (λ _, True).
Proof.
  intros Hm c. unfold getitem. destruct (c !! dep_name key) as [s|]; [|apply Hm].
  by exists s, c.
Qed.

Lemma returns_union_of_closures missing deps :
  (∀ dep, dep ∈ deps → returns (missing dep) (λ _, True)) →
  returns (union_of_closures missing deps) (λ _, True).
Proof.
  intros Hm. unfold union_of_closures. apply returns_for_each.
  intros dep total Hin. eapply returns_bind.
  - apply returns_getitem. by apply Hm.
  - intros s _. by apply returns_ret.
Qed.

End Returns.

Section Acyclic.
Context {rt : Runtime}.
Variable w : DependencyWalker.
Variable rank : string → nat.
Hypothesis Hrank : acyclic_by w rank.
Hypothesis Hreg : ∀ k l d, descriptors_by_name w !! k = Some l → d ∈ l → name d = k.

Lemma missing_returns n : ∀ key,
  (known w (dep_name key) → rank (dep_name key) + 1 < n) → 0 < n →
  returns (__missing__ n w key) (λ _, True).
Proof.
  induction n as [|n IH]; intros key Hkey Hn; [lia|]. simpl.
  eapply returns_bind with (R := λ _, True).
  - destruct (descriptors_by_name w !! Some (dep_name key)) as [ds|] eqn:Hds;
      [|by apply returns_ret].
    assert (known w (dep_name key)) as Hk by (by eexists).
    apply returns_for_each. intros d acc Hd.
    destruct (get_dependencies d (categories w)).1 as [deps|] eqn:Hg.
    + eapply returns_bind; [by apply returns_lift|]. intros ? ->.
      eapply returns_bind with (R := λ _, True); [|by intros; apply returns_ret].
      apply returns_union_of_closures. intros dep Hdep.
      apply elem_of_elements_of in Hdep.
      destruct (proj1 (get_dependencies_Ok_names d _ deps Hg (dep_name dep)))
        as [e He]; [by eexists|].
      apply IH.
      * intros Hkd. specialize (Hkey Hk).
        assert (rank (dep_name dep) < rank (dep_name key)); [|lia].
        apply Hrank. split; [|done]. eauto 10.
      * specialize (Hkey Hk). lia.
    + apply get_dependencies_AssertionError in Hg as (n' & e & Hn' & Hl).
      rewrite (Hreg _ _ _ Hds Hd) in Hn'. injection Hn' as <-.
      assert (rank (dep_name key) < rank (dep_name key)); [|lia].
      apply Hrank. split; [|done]. eauto 10.
  - intros s _. eapply returns_bind; [apply returns_setitem|].
    intros _ _. by apply returns_ret.
Qed.

End Acyclic.


Section Depth.

Lemma bind_below {A B} (m1 m2 : M A) (f1 f2 : A → M B) :
  below m1 m2 → (∀ a, below (f1 a) (f2 a)) → below (bind m1 f1) (bind m2 f2).
Proof.
  intros Hm Hf c r. unfold bind.
  destruct (m1 c) as [[[a|] c1]|] eqn:Hm1; [| |done]; rewrite (Hm _ _ Hm1); [apply Hf|done].
Qed.

Lemma below_refl {A} (m : M A) : below m m.
Proof. by intros c r. Qed.

Lemma for_each_below {A B} (l : list A) (body1 body2 : B → A → M B) :
  (∀ acc x, below (body1 acc x) (body2 acc x)) →
  ∀ acc, below (for_each l body1 acc) (for_each l body2 acc).
Proof.
  intros Hbody. induction l as [|x l IH]; intros acc; simpl; [apply below_refl|].
  by apply bind_below.
Qed.

Lemma getitem_below missing1 missing2 key :
  below (missing1 key) (missing2 key) → below (getitem missing1 key) (getitem missing2 key).
Proof. intros Hm c r. unfold getitem. destruct (c !! dep_name key); [done|apply Hm]. Qed.

Lemma union_of_closures_below missing1 missing2 deps :
  (∀ key, below (missing1 key) (missing2 key)) →
  below (union_of_closures missing1 deps) (union_of_closures missing2 deps).
Proof.
  intros Hm. apply for_each_below. intros total dep.
  apply bind_below; [by apply getitem_below|]. intros s. apply below_refl.
Qed.

Context {rt : Runtime}.

(** More nesting depth changes nothing about a call that came back. *)
Lemma missing_below_S (w : DependencyWalker) n :
  ∀ key, below (__missing__ n w key) (__missing__ (S n) w key).
Proof.
  induction n as [|n IH]; intros key; [by intros c r|].
  change (__missing__ (S (S n)) w key) with
    (bind
       match descriptors_by_name w !! Some (dep_name key) with
       | Some descriptors =>
           for_each descriptors
             (λ dependency_set descriptor,
                bind (lift (get_dependencies descriptor (categories w)).1)
                  (λ dependencies,
                     bind (union_of_closures (__missing__ (S n) w) (elements_of dependencies))
                       (λ recursive_deps, ret (dependency_set ∪ recursive_deps))))
             (set_add key ∅)
       | None => ret ∅
       end
       (λ dependency_set, bind (setitem key dependency_set) (λ _, ret dependency_set))).
  simpl. apply bind_below; [|intros; apply below_refl].
  destruct (descriptors_by_name w !! Some (dep_name key)); [|apply below_refl].
  apply for_each_below. intros acc d.
  apply bind_below; [apply below_refl|]. intros deps.
  apply bind_below; [|intros; apply below_refl].
  by apply union_of_closures_below.
Qed.

Lemma missing_below (w : DependencyWalker) (n n' : nat) key :
  (n ≤ n')%nat → below (__missing__ n w key) (__missing__ n' w key).
Proof.
  induction 1 as [|n' _ IH]; [apply below_refl|].
  intros c r Hr. by apply missing_below_S, IH.
Qed.

Lemma get_recursive_dependencies_depth (w : DependencyWalker) (n n' : nat) deps r :
  (n ≤ n')%nat →
  get_recursive_dependencies n w deps = Some r →
  get_recursive_dependencies n' w deps = Some r.
Proof.
  intros Hn. unfold get_recursive_dependencies.
  destruct (union_of_closures (__missing__ n w) _ _) as [[r0 c0]|] eqn:Hu; [|done].
  by rewrite (union_of_closures_below _ (__missing__ n' w) deps
                (λ key, missing_below w n n' key Hn) _ _ Hu).
Qed.

Lemma ranked_acyclic (w : DependencyWalker) (rank : string → nat) :
  ranked w rank = true → acyclic_by w rank.
Proof.
  unfold ranked. rewrite forallb_forall.
  intros Hr a b [(ds & d & e & Hds & Hd & Hl) Hb].
  specialize (Hr (Some a, ds)). simpl in Hr.
  rewrite forallb_forall in Hr.
  assert ((∀ x, In x ds → forallb
            (λ b0, if bool_decide (known w b0) then bool_decide (rank b0 < rank a) else true)
            (map_to_list (collect x (categories w)).1).*1 = true)) as Hds'.
  { apply Hr. apply list_elem_of_In. by apply elem_of_map_to_list. }
  specialize (Hds' d (proj1 (list_elem_of_In _ _) Hd)).
  rewrite forallb_forall in Hds'. specialize (Hds' b).
  destruct (proj2 (proj2 (collect_spec d (categories w))) _ _ Hl) as [e' He'].
  rewrite bool_decide_eq_true_2 in Hds' by done.
  eapply bool_decide_eq_true_1. apply Hds'. apply list_elem_of_In.
  apply list_elem_of_fmap. exists (b, e'). split; [done|]. by apply elem_of_map_to_list.
Qed.

Lemma get_recursive_dependencies_returns (w : DependencyWalker) (rank : string → nat)
    (deps : list DependencyDescriptor) :
  walker_state w → acyclic_by w rank →
  ∃ N s w', ∀ fuel, (N ≤ fuel)%nat →
    get_recursive_dependencies fuel w deps = Some (Ok s, w').
Proof.
  intros Hw Hrank. set (N := S (S (max_list ((rank ∘ dep_name) <$> deps)))).
  assert (∀ dep, dep ∈ deps → returns (__missing__ N w dep) (λ _, True)) as Hm.
  { intros dep Hdep. apply (missing_returns w rank Hrank).
    - intros k l d. by apply walker_state_registered.
    - intros _. assert (rank (dep_name dep) ≤ max_list ((rank ∘ dep_name) <$> deps))%nat.
      { apply max_list_elem_of_le. apply list_elem_of_fmap. by exists dep. }
      subst N. lia.
    - subst N. lia. }
  destruct (returns_union_of_closures _ deps Hm (dependency_cache w)) as (s & c' & Hu & _).
  exists N, s, (with_cache w c'). intros fuel Hfuel.
  apply (get_recursive_dependencies_depth w N fuel); [done|].
  unfold get_recursive_dependencies. by rewrite Hu.
Qed.

(** X5: when the dependencies between known packages go down along some
    rank, so that there is no cycle, a call comes back with a set: from
    some nesting depth on it gives the same set and the same walker,
    whatever the depth allowed; the names of the set are those reached
    from the known dependencies asked for. *)
Theorem acyclic_returns (w : DependencyWalker) (rank : string → nat)
    (deps : list DependencyDescriptor) :
  walker_state w → acyclic_by w rank →
  ∃ N s w',
    (∀ fuel, (N ≤ fuel)%nat →
       get_recursive_dependencies fuel w deps = Some (Ok s, w'))
    ∧ (∀ m, is_Some (s !! m) ↔
            ∃ dep, dep ∈ deps ∧ known w (dep_name dep) ∧ reaches w (dep_name dep) m)
    ∧ walker_state w'.
Proof.
  intros Hw Hrank.
  destruct (get_recursive_dependencies_returns w rank deps Hw Hrank) as (N & s & w' & Hcall).
  exists N, s, w'. split; [exact Hcall|].
  specialize (Hcall N (le_n N)). split.
  - by apply (get_recursive_dependencies_union_closure w N deps s w').
  - by eapply ws_call.
Qed.

End Depth.

(** ** The walker on concrete packages *)

Section WalkerExamples.
#[local] Existing Instance Examples.simple_runtime.

Lemma acyclic_returns_witness :
  walker_state Examples.walker
  ∧ acyclic_by Examples.walker Examples.rank
  ∧ ∃ N s w',
      (∀ fuel, (N ≤ fuel)%nat →
         get_recursive_dependencies fuel Examples.walker [Examples.dep "A"]
         = Some (Ok s, w'))
      ∧ (∀ m, is_Some (s !! m) ↔
              ∃ dep, dep ∈ [Examples.dep "A"] ∧ known Examples.walker (dep_name dep)
                     ∧ reaches Examples.walker (dep_name dep) m)
      ∧ walker_state w'.
Proof.
  assert (acyclic_by Examples.walker Examples.rank) as Hrank.
  { apply ranked_acyclic. vm_compute. reflexivity. }
  split; [constructor|]. split; [exact Hrank|].
  apply (acyclic_returns Examples.walker Examples.rank); [constructor|exact Hrank].
Defined.

Lemma get_recursive_dependencies_closure_witness :
  walker_state Examples.walker
  ∧ ¬ known Examples.walker "ext"
  ∧ (∃ w', get_recursive_dependencies 1 Examples.walker [Examples.dep "ext"]
           = Some (Ok ∅, w'))
  ∧ ∃ s w', get_recursive_dependencies 4 Examples.walker [Examples.dep "A"]
            = Some (Ok s, w')
      ∧ ∀ m, is_Some (s !! m) → known Examples.walker m.
Proof.
  assert (¬ known Examples.walker "ext") as Hext.
  { intros [x Hx]. vm_compute in Hx. discriminate Hx. }
  destruct (get_recursive_dependencies_closure Examples.walker (ws_init _ _))
    as (H1 & H2 & _).
  split; [constructor|]. split; [exact Hext|]. split.
  - apply (H1 0 (Examples.dep "ext")). exact Hext.
  - eexists _, _. split; [vm_compute; reflexivity|].
    eapply (H2 4 [Examples.dep "A"]). vm_compute. reflexivity.
Defined.

Lemma get_recursive_dependencies_memoized_witness :
  ∃ s w', get_recursive_dependencies 4 Examples.walker [Examples.dep "A"] = Some (Ok s, w')
    ∧ get_recursive_dependencies 0 w' [Examples.versioned "A" "1"] = Some (Ok s, w').
Proof.
  assert (∃ s w', get_recursive_dependencies 4 Examples.walker [Examples.dep "A"]
                  = Some (Ok s, w')) as (s & w' & Hcall).
  { eexists _, _. vm_compute. reflexivity. }
  exists s, w'. split; [exact Hcall|].
  by apply (proj1 (get_recursive_dependencies_memoized _ _ _ _ _ Hcall)).
Defined.

End WalkerExamples.

(** ** Packages that list themselves, seen from the walker *)

Section SelfListing.
Context {rt : Runtime}.
Variable w : DependencyWalker.

Lemma union_of_closures_blamed missing deps :
  (∀ key, triple (blame_free w) (missing key)
            (λ _ c, blame_free w c ∧ ¬ blamed w (dep_name key)) (blame_free w)) →
  triple (blame_free w) (union_of_closures missing deps)
    (λ _ c, blame_free w c ∧ ∀ dep, dep ∈ deps → ¬ blamed w (dep_name dep))
    (blame_free w).
Proof.
  intros Hm. unfold union_of_closures.
  pose (I := λ (seen : list DependencyDescriptor) (_ : dep_set) (c : cache),
          blame_free w c ∧ ∀ dep, dep ∈ seen → ¬ blamed w (dep_name dep)).
  eapply (triple_conseq _ (I [] ∅) _ _ _ (I ([] ++ deps))).
  - apply triple_for_each. intros seen dep total _.
    apply triple_assume. intros Hseen.
    eapply triple_bind with
      (R := λ _ c, blame_free w c ∧ ¬ blamed w (dep_name dep)).
    + apply triple_getitem.
      * eapply triple_conseq; [apply Hm|naive_solver..].
      * intros c s Hc Hs. split; [done|]. intros Hb. by rewrite (Hc _ Hb) in Hs.
    + intros s. apply triple_ret. intros c [Hc Hdep]. split; [done|].
      intros dep' Hin. apply elem_of_app in Hin as [Hin|Hin]; [by apply Hseen|].
      by apply list_elem_of_singleton in Hin as ->.
  - intros c Hc. split; [done|]. intros dep Hin. by apply elem_of_nil in Hin.
  - done.
  - done.
Qed.

Lemma missing_blamed fuel key :
  triple (blame_free w) (__missing__ fuel w key)
    (λ _ c, blame_free w c ∧ ¬ blamed w (dep_name key)) (blame_free w).
Proof.
  revert key. induction fuel as [|fuel IH]; intros key; [by intros ???|]. simpl.
  eapply triple_bind with
    (R := λ _ c, blame_free w c ∧ ¬ blamed w (dep_name key)).
  - destruct (descriptors_by_name w !! Some (dep_name key)) as [ds|] eqn:Hds.
    + pose (I := λ (seen : list PackageDescriptor) (_ : dep_set) (c : cache),
              blame_free w c ∧
              ∀ d, d ∈ seen →
                (get_dependencies d (categories w)).1 ≠ AssertionError ∧
                ∀ n e, listed d (categories w) n e → ¬ blamed w n).
      eapply (triple_conseq _ (I [] (set_add key ∅)) _ _ _ (I ([] ++ ds))).
      * apply triple_for_each. intros seen d acc Hd.
        apply triple_assume. intros Hseen.
        eapply triple_bind; [apply triple_lift|]. intros deps. simpl.
        apply (triple_assume (blame_free w)). intros Hdeps.
        eapply triple_bind; [by apply union_of_closures_blamed|].
        intros s. apply triple_ret. intros c [Hc Hs]. split; [done|].
        intros d' Hin. apply elem_of_app in Hin as [Hin|Hin]; [by apply Hseen|].
        apply list_elem_of_singleton in Hin as ->. split; [congruence|].
        intros n e Hl.
        pose proof (get_dependencies_Ok_names d (categories w) deps Hdeps) as Hnames.
        destruct (proj2 (Hnames n)) as [md Hmd]; [by eexists|].
        apply (Hs {| dep_name := n; dep_metadata := md |}).
        by apply elem_of_elements_of.
      * intros c Hc. split; [done|]. intros d Hin. by apply elem_of_nil in Hin.
      * intros s c [Hc Hs]. split; [done|].
        intros (m & ds' & d & Hr & Hds' & Hd & Hg).
        apply rtc_inv in Hr as [<-|(n & [(ds0 & d0 & e & Hds0 & Hd0 & Hl) _] & Hr)].
        -- simplify_eq. by destruct (Hs d Hd) as [Hok _].
        -- simplify_eq. destruct (Hs d0 Hd0) as [_ Hnb]. apply (Hnb n e Hl).
           by exists m, ds', d.
      * done.
    + apply triple_ret. intros c Hc. split; [done|].
      intros (m & ds' & d & Hr & Hds' & Hd & Hg).
      apply rtc_inv in Hr as [<-|(n & [(ds0 & d0 & e & Hds0 & _) _] & _)]; congruence.
  - intros s. apply (triple_assume (blame_free w)). intros Hkey.
    eapply triple_bind with (R := λ _ c, blame_free w c ∧ ¬ blamed w (dep_name key)).
    + apply triple_setitem. intros c Hc. split; [|done]. intros n Hn.
      rewrite lookup_insert_ne; [by apply Hc|]. by intros <-.
    + intros _. by apply triple_ret.
Qed.

End SelfListing.

Section SelfListingCalls.
Context {rt : Runtime}.

Lemma walker_state_blame_free (w : DependencyWalker) :
  walker_state w → blame_free w (dependency_cache w).
Proof.
  induction 1 as [ds cs|w fuel deps r w' _ IH Hcall].
  - intros n _. apply lookup_empty.
  - apply get_recursive_dependencies_inv in Hcall as (c' & Hc' & ->).
    pose proof (union_of_closures_blamed w _ deps (missing_blamed w fuel) _ _ _ IH Hc')
      as Hpost.
    destruct r; [apply Hpost|exact Hpost].
Qed.

Lemma with_cache_same (w : DependencyWalker) : with_cache w (dependency_cache w) = w.
Proof. by destruct w. Qed.

Lemma get_recursive_dependencies_blamed (w : DependencyWalker) deps dep fuel s w' :
  walker_state w → dep ∈ deps → blamed w (dep_name dep) →
  get_recursive_dependencies fuel w deps ≠ Some (Ok s, w').
Proof.
  intros Hw Hin Hb Hcall.
  apply get_recursive_dependencies_inv in Hcall as (c' & Hc' & ->).
  pose proof (union_of_closures_blamed w _ deps (missing_blamed w fuel) _ _ _
                (walker_state_blame_free w Hw) Hc') as [_ Hpost].
  by apply (Hpost dep).
Qed.

(** X6: asking for a dependency that is, or reaches through known
    packages, a package with a descriptor listing its own name never
    returns a set; and when every descriptor registered under the name
    asked for lists itself, the call raises [AssertionError] and stores
    nothing in the cache. *)
Theorem self_listing_raises (w : DependencyWalker) (deps : list DependencyDescriptor)
    (dep : DependencyDescriptor) :
  walker_state w → dep ∈ deps → blamed w (dep_name dep) →
  (∀ fuel s w', get_recursive_dependencies fuel w deps ≠ Some (Ok s, w'))
  ∧ (∀ d ds,
       descriptors_by_name w !! Some (dep_name dep) = Some (d :: ds) →
       (∀ d', d' ∈ d :: ds → (get_dependencies d' (categories w)).1 = AssertionError) →
       ∀ fuel, get_recursive_dependencies (S fuel) w [dep] = Some (AssertionError, w)).
Proof.
  intros Hw Hin Hb. split.
  - intros fuel s w'. by eapply get_recursive_dependencies_blamed.
  - intros d ds Hds Hall fuel.
    pose proof (walker_state_blame_free w Hw _ Hb) as Hnone.
    unfold get_recursive_dependencies, union_of_closures. simpl.
    unfold bind at 1. unfold bind at 1. unfold getitem. rewrite Hnone. simpl.
    rewrite Hds. simpl. unfold bind at 1. unfold bind at 1. unfold bind at 1.
    unfold lift. rewrite (Hall d) by (by left). simpl.
    by rewrite with_cache_same.
Qed.

End SelfListingCalls.

Section SelfListingExample.
#[local] Existing Instance Examples.simple_runtime.

Lemma self_listing_raises_witness :
  walker_state Examples.selfish_walker
  ∧ blamed Examples.selfish_walker "S"
  ∧ get_recursive_dependencies 1 Examples.selfish_walker [Examples.dep "S"]
    = Some (AssertionError, Examples.selfish_walker).
Proof.
  assert (blamed Examples.selfish_walker "S") as Hb.
  { exists "S", [Examples.selfish], Examples.selfish.
    split; [apply rtc_refl|]. split; [by vm_compute|]. split; [by left|]. by vm_compute. }
  split; [constructor|]. split; [exact Hb|].
  apply (proj2 (self_listing_raises Examples.selfish_walker [Examples.dep "S"]
                  (Examples.dep "S") (ws_init _ _) (list_elem_of_here _ _) Hb)
           Examples.selfish []).
  - by vm_compute.
  - intros d' Hd'. apply list_elem_of_singleton in Hd' as ->. by vm_compute.
Defined.

End SelfListingExample.

(** ** Identity of descriptors, and calls that follow one another *)

Section Identity.
Context {rt : Runtime}.

(** X7: [__eq__] is an equivalence on package descriptors: reflexive,
    symmetric and transitive (descriptors with equal paths have equal real
    paths); and it looks at type, name and path only. *)
Theorem eq_equivalence :
  (∀ a, __eq__ a a = true)
  ∧ (∀ a b, __eq__ a b = __eq__ b a)
  ∧ (∀ a b c, __eq__ a b = true → __eq__ b c = true → __eq__ a c = true)
  ∧ (∀ a a' b, path a = path a' → type a = type a' → name a = name a' →
               __eq__ a b = __eq__ a' b ∧ __hash__ a = __hash__ a').
Proof.
  split_and!.
  - apply eq_refl_descriptor.
  - intros a b. unfold __eq__. repeat case_bool_decide; simpl; congruence.
  - intros a b c. unfold __eq__. repeat case_bool_decide; simpl; congruence.
  - intros a a' b Hp Ht Hn. unfold __eq__, __hash__. by rewrite Hp, Ht, Hn.
Qed.

(** X8: calls of [get_dependencies] do not disturb one another: what a
    call returns or raises is the same after any earlier call, although
    that call may have left empty categories behind; a call for all
    categories changes nothing at all; and the descriptor keeps its hash,
    stays equal to what it was and identifies a package as before, so it
    stays where it is in sets and dictionaries. *)
Theorem get_dependencies_calls_independent (self : PackageDescriptor)
    (cs cs' : option (list string)) :
  (get_dependencies (get_dependencies self cs).2 cs').1 = (get_dependencies self cs').1
  ∧ (get_dependencies self None).2 = self
  ∧ __hash__ (get_dependencies self cs).2 = __hash__ self
  ∧ __eq__ (get_dependencies self cs).2 self = true
  ∧ identifies_package (get_dependencies self cs).2 = identifies_package self.
Proof.
  split; [apply get_dependencies_stable|]. split; [apply get_dependencies_all_pure|].
  rewrite get_dependencies_unfold. simpl. split; [done|]. split; [|done].
  unfold __eq__. simpl. by rewrite !bool_decide_eq_true_2.
Qed.

End Identity.

(** ** A name listed in several categories *)

Section FirstCategory.
Context {rt : Runtime}.

Lemma foldl_union_lookup (g : string → entry_set) (l : list string) (n : string) :
  ∀ acc, foldl (λ a c, a ∪ g c) acc l !! n =
         match acc !! n with
         | Some e => Some e
         | None => head (omap (λ c, g c !! n) l)
         end.
Proof.
  induction l as [|c l IH]; intros acc; simpl.
  - by destruct (acc !! n).
  - rewrite IH, lookup_union.
    destruct (acc !! n) as [e|], (g c !! n) as [e'|]; done.
Qed.

Lemma head_omap_sorted {B} (f : string → option B) (l : list string) (e : B) :
  StronglySorted str_le l →
  head (omap f l) = Some e ↔
  ∃ c, c ∈ l ∧ f c = Some e ∧ ∀ c', c' ∈ l → is_Some (f c') → str_le c c'.
Proof.
  induction 1 as [|c l Hl IH Hc]; simpl.
  - split; [done|]. intros (c & Hin & _). by apply elem_of_nil in Hin.
  - rewrite Forall_forall in Hc. destruct (f c) as [e0|] eqn:Hfc; simpl.
    + split.
      * intros [= ->]. exists c. split; [by left|]. split; [done|].
        intros c' Hin _. apply elem_of_cons in Hin as [->|Hin]; [|by apply Hc].
        destruct (total str_le c c); done.
      * intros (c1 & Hin & Hf1 & Hleast).
        apply elem_of_cons in Hin as [->|Hin]; [congruence|].
        assert (c1 = c) as ->; [|congruence].
        apply (anti_symm str_le); [|by apply Hc].
        apply Hleast; [by left|by rewrite Hfc].
    + rewrite IH. split.
      * intros (c1 & Hin & Hf1 & Hleast). exists c1. split; [by right|]. split; [done|].
        intros c' Hin' Hsome. apply elem_of_cons in Hin' as [->|Hin']; [|by apply Hleast].
        rewrite Hfc in Hsome. by destruct Hsome.
      * intros (c1 & Hin & Hf1 & Hleast).
        apply elem_of_cons in Hin as [->|Hin]; [congruence|].
        exists c1. split; [done|]. split; [done|].
        intros c' Hin' Hsome. apply Hleast; [by right|done].
Qed.

Lemma collect_first (self : PackageDescriptor) (categories : option (list string)) n e :
  (collect self categories).1 !! n = Some e ↔
  ∃ c es, selected self categories c ∧ dependencies self !! c = Some es ∧
          es !! n = Some e ∧
          ∀ c' es', selected self categories c' → dependencies self !! c' = Some es' →
                    is_Some (es' !! n) → str_le c c'.
Proof.
  unfold collect.
  rewrite (foldl_add_category_fst (λ c, default ∅ (dependencies self !! c))) by done.
  rewrite foldl_union_lookup, lookup_empty.
  rewrite head_omap_sorted by (apply StronglySorted_merge_sort; apply _).
  assert (∀ c, c ∈ sorted match categories with
                          | Some cs => cs
                          | None => keys (dependencies self)
                          end ↔ selected self categories c) as Hsel.
  { intros c. rewrite elem_of_sorted. destruct categories; simpl; [done|].
    apply elem_of_keys. }
  split.
  - intros (c & Hin & Hc & Hleast). apply Hsel in Hin.
    destruct (dependencies self !! c) as [es|] eqn:Hes; simpl in Hc; [|done].
    exists c, es. split; [done|]. split; [done|]. split; [done|].
    intros c' es' Hsel' Hes' Hn. apply Hleast; [by apply Hsel|]. by rewrite Hes'.
  - intros (c & es & Hin & Hes & Hn & Hleast). exists c. split; [by apply Hsel|].
    rewrite Hes. split; [done|]. intros c' Hin' Hsome. apply Hsel in Hin'.
    destruct (dependencies self !! c') as [es'|] eqn:Hes'; simpl in Hsome.
    + by eapply Hleast.
    + rewrite lookup_empty in Hsome. by destruct Hsome.
Qed.

(** X9: when a name is listed in several of the selected categories, it
    comes back as it is listed in the first of them in the sorted order of
    the category names: with that entry's metadata, or with none when it
    is a bare string there; and what a call returns or raises depends only
    on which categories are named, not on their order or on a category
    named more than once. *)
Theorem get_dependencies_first_category (self : PackageDescriptor)
    (categories : option (list string)) :
  (∀ r, (get_dependencies self categories).1 = Ok r →
     ∀ n md, r !! n = Some md ↔
       ∃ c es e, selected self categories c ∧ dependencies self !! c = Some es ∧
                 es !! n = Some e ∧ md = coerce e ∧
                 ∀ c' es', selected self categories c' →
                           dependencies self !! c' = Some es' →
                           is_Some (es' !! n) → str_le c c')
  ∧ (∀ cs cs', (∀ c, c ∈ cs ↔ c ∈ cs') →
       (get_dependencies self (Some cs)).1 = (get_dependencies self (Some cs')).1).
Proof.
  split.
  - rewrite get_dependencies_unfold. simpl.
    destruct (name_in _ _); [done|]. intros r [= <-] n md.
    rewrite lookup_fmap, fmap_Some. split.
    + intros (e & He & ->). apply collect_first in He as (c & es & ? & ? & ? & ?).
      exists c, es, e. done.
    + intros (c & es & e & Hsel & Hes & Hn & -> & Hleast). exists e. split; [|done].
      apply collect_first. by exists c, es.
  - intros cs cs' Hsame. rewrite !get_dependencies_unfold. simpl.
    assert ((collect self (Some cs)).1 = (collect self (Some cs')).1) as ->; [|done].
    apply map_eq. intros n. apply option_eq. intros e. rewrite !collect_first.
    simpl. by setoid_rewrite Hsame.
Qed.

End FirstCategory.

Section FirstCategoryExample.
#[local] Existing Instance Examples.simple_runtime.

(** [B] comes back with the version it has under [build], however the
    categories are named. *)
Lemma get_dependencies_first_category_witness :
  (get_dependencies Examples.twice (Some ["run"; "build"; "run"])).1
  = (get_dependencies Examples.twice (Some ["build"; "run"])).1
  ∧ (get_dependencies Examples.twice (Some ["build"; "run"])).1
    = Ok {[ "B" := {[ "version" := "1" ]} ]}.
Proof.
  split; [|by vm_compute].
  apply (proj2 (get_dependencies_first_category Examples.twice None)).
  intros c. rewrite !elem_of_cons. naive_solver.
Defined.

End FirstCategoryExample.

(** ** Recursive dependencies of a package *)

Section RecursiveDependenciesOfPackage.
Context {rt : Runtime}.

Lemma index_nonempty (ds : list PackageDescriptor) (cs : option (list string)) k l :
  descriptors_by_name (walker_init ds cs) !! k = Some l → l ≠ [].
Proof.
  revert k l. induction ds as [|d ds IH] using rev_ind; intros k l; simpl.
  - by rewrite lookup_empty.
  - simpl in IH. rewrite foldl_snoc. set (m := foldl _ ∅ ds) in *.
    destruct (decide (name d = k)) as [<-|Hne].
    + rewrite lookup_insert_eq. intros [= <-] Hnil.
      destruct (descriptors_add_covers d (default [] (m !! name d))) as (e & He & _).
      rewrite Hnil in He. by apply elem_of_nil in He.
    + rewrite lookup_insert_ne by done. apply IH.
Qed.

Lemma known_walker_init (descriptors : list PackageDescriptor) cs n :
  known (walker_init descriptors cs) n ↔ ∃ d, d ∈ descriptors ∧ name d = Some n.
Proof.
  destruct (index_spec descriptors cs) as (Hreg & Hcov & _). split.
  - intros [[|d l] Hl].
    + by destruct (index_nonempty _ _ _ _ Hl).
    + destruct (Hreg _ _ d Hl) as [Hn Hd]; [by left|]. by exists d.
  - intros (d & Hd & Hn). destruct (Hcov d Hd) as (l & e & Hl & _).
    rewrite Hn in Hl. by exists l.
Qed.

(** The walker a call works with. *)
Lemma recursive_walker_state descriptors recursive_categories walker :
  (∀ w0, walker = Some w0 → walker_state w0) →
  walker_state (default (walker_init descriptors recursive_categories) walker).
Proof. intros Hw. destruct walker as [w0|]; simpl; [by apply Hw|constructor]. Qed.

Lemma recursive_unfold fuel self descriptors dc rc walker :
  PackageDescriptor_get_recursive_dependencies fuel self descriptors dc rc walker =
  match (get_dependencies self dc).1 with
  | AssertionError => Some (AssertionError, default (walker_init descriptors rc) walker)
  | Ok direct_dependencies =>
      get_recursive_dependencies fuel (default (walker_init descriptors rc) walker)
        (elements_of direct_dependencies)
  end.
Proof. unfold PackageDescriptor_get_recursive_dependencies. by destruct walker. Qed.

Lemma listed_elements_of self dc direct :
  (get_dependencies self dc).1 = Ok direct →
  ∀ n, (∃ e, listed self dc n e) ↔ ∃ dep, dep ∈ elements_of direct ∧ dep_name dep = n.
Proof.
  intros Hd n. rewrite <-(get_dependencies_Ok_names self dc direct Hd n). split.
  - intros [md Hmd]. exists {| dep_name := n; dep_metadata := md |}.
    split; [|done]. by apply elem_of_elements_of.
  - intros (dep & Hin & <-). apply elem_of_elements_of in Hin. by eexists.
Qed.

(** X10: the set a package's [get_recursive_dependencies] returns holds
    the names reached, through known packages and the recursive
    categories, from the known names the package lists in its direct
    categories: names that are no known packages are ignored, the package
    does not list itself, and with no walker passed in the known packages
    are those of the descriptors given. *)
Theorem recursive_dependencies_closure (fuel : nat) (self : PackageDescriptor)
    (descriptors : list PackageDescriptor)
    (direct_categories recursive_categories : option (list string))
    (walker : option DependencyWalker) (s : dep_set) (w' : DependencyWalker) :
  (∀ w0, walker = Some w0 → walker_state w0) →
  PackageDescriptor_get_recursive_dependencies fuel self descriptors
    direct_categories recursive_categories walker = Some (Ok s, w') →
  let w := default (walker_init descriptors recursive_categories) walker in
  (∀ m, is_Some (s !! m) ↔
        ∃ n e, listed self direct_categories n e ∧ known w n ∧ reaches w n m)
  ∧ (∀ m, is_Some (s !! m) → known w m)
  ∧ (∀ n e, name self = Some n → ¬ listed self direct_categories n e)
  ∧ (walker = None →
     ∀ n, known w n ↔ ∃ d, d ∈ descriptors ∧ name d = Some n)
  ∧ walker_state w'.
Proof.
  intros Hws Hcall w. rewrite recursive_unfold in Hcall. fold w in Hcall.
  pose proof (recursive_walker_state descriptors recursive_categories walker Hws) as Hw.
  fold w in Hw.
  destruct (get_dependencies self direct_categories).1 as [direct|] eqn:Hd; [|done].
  pose proof (get_recursive_dependencies_union_closure w _ _ _ _ Hw Hcall) as Hs.
  pose proof (listed_elements_of self direct_categories direct Hd) as Hl.
  assert (∀ m, is_Some (s !! m) ↔
        ∃ n e, listed self direct_categories n e ∧ known w n ∧ reaches w n m) as Hchar.
  { intros m. rewrite (Hs m). split.
    - intros (dep & Hin & Hk & Hr).
      destruct (proj2 (Hl (dep_name dep))) as [e He]; [by exists dep|].
      by exists (dep_name dep), e.
    - intros (n & e & He & Hk & Hr).
      destruct (proj1 (Hl n)) as (dep & Hin & <-); [by exists e|].
      by exists dep. }
  split_and!.
  - exact Hchar.
  - intros m Hm. apply Hchar in Hm as (n & e & _ & Hk & Hr). by eapply reaches_known.
  - intros n e Hn Hlist.
    assert ((get_dependencies self direct_categories).1 = AssertionError); [|congruence].
    apply get_dependencies_AssertionError. by exists n, e.
  - intros -> n. apply known_walker_init.
  - by eapply ws_call.
Qed.

(** X11: a package that lists its own name in the direct categories makes
    [get_recursive_dependencies] raise [AssertionError] before the walker
    is asked anything; a direct dependency that is, or reaches, a package
    listing itself in the recursive categories keeps the call from
    returning a set; and otherwise, when the dependencies between the
    known packages go down along some rank, the call returns a set, the
    same from some nesting depth on. *)
Theorem recursive_dependencies_outcome (self : PackageDescriptor)
    (descriptors : list PackageDescriptor)
    (direct_categories recursive_categories : option (list string))
    (walker : option DependencyWalker) :
  (∀ w0, walker = Some w0 → walker_state w0) →
  let w := default (walker_init descriptors recursive_categories) walker in
  let call fuel :=
    PackageDescriptor_get_recursive_dependencies fuel self descriptors
      direct_categories recursive_categories walker in
  ((∃ n e, name self = Some n ∧ listed self direct_categories n e) →
     ∀ fuel, call fuel = Some (AssertionError, w))
  ∧ (∀ n e, listed self direct_categories n e → blamed w n →
       ∀ fuel s w', call fuel ≠ Some (Ok s, w'))
  ∧ (∀ rank, (¬ ∃ n e, name self = Some n ∧ listed self direct_categories n e) →
       acyclic_by w rank →
       ∃ N s w', ∀ fuel, (N ≤ fuel)%nat → call fuel = Some (Ok s, w')).
Proof.
  intros Hws w call.
  pose proof (recursive_walker_state descriptors recursive_categories walker Hws) as Hw.
  fold w in Hw. subst call. simpl. split_and!.
  - intros Hself fuel. rewrite recursive_unfold.
    apply get_dependencies_AssertionError in Hself. by rewrite Hself.
  - intros n e Hl Hb fuel s w' Hcall. rewrite recursive_unfold in Hcall. fold w in Hcall.
    destruct (get_dependencies self direct_categories).1 as [direct|] eqn:Hd; [|done].
    destruct (proj1 (listed_elements_of self direct_categories direct Hd n))
      as (dep & Hin & <-); [by exists e|].
    by apply (get_recursive_dependencies_blamed w _ dep fuel s w' Hw Hin Hb).
  - intros rank Hself Hrank.
    destruct (get_dependencies self direct_categories).1 as [direct|] eqn:Hd.
    + destruct (get_recursive_dependencies_returns w rank (elements_of direct) Hw Hrank)
        as (N & s & w' & Hcall).
      exists N, s, w'. intros fuel Hfuel. rewrite recursive_unfold, Hd. by apply Hcall.
    + destruct Hself. by apply get_dependencies_AssertionError.
Qed.

End RecursiveDependenciesOfPackage.

Section RecursiveDependenciesExamples.
#[local] Existing Instance Examples.simple_runtime.

(** [pkg_A] among [pkg_A], [pkg_B] and [pkg_C], with all categories. *)
Lemma recursive_dependencies_closure_witness :
  ∃ s w',
    PackageDescriptor_get_recursive_dependencies 4 Examples.pkg_A
      [Examples.pkg_A; Examples.pkg_B; Examples.pkg_C] None None None = Some (Ok s, w')
    ∧ (∀ m, is_Some (s !! m) ↔
            ∃ n e, listed Examples.pkg_A None n e ∧ known Examples.walker n
                   ∧ reaches Examples.walker n m)
    ∧ s = {[ "B" := ∅; "C" := {[ "version" := "2" ]} ]}.
Proof.
  assert (∃ s w',
    PackageDescriptor_get_recursive_dependencies 4 Examples.pkg_A
      [Examples.pkg_A; Examples.pkg_B; Examples.pkg_C] None None None = Some (Ok s, w')
    ∧ s = {[ "B" := ∅; "C" := {[ "version" := "2" ]} ]}) as (s & w' & Hcall & Hs).
  { eexists _, _. split; vm_compute; reflexivity. }
  exists s, w'. split; [exact Hcall|]. split; [|exact Hs].
  apply (recursive_dependencies_closure 4 Examples.pkg_A
           [Examples.pkg_A; Examples.pkg_B; Examples.pkg_C] None None None s w');
    [discriminate|exact Hcall].
Defined.

(** [selfish] lists itself; [pkg_A] does not, and its packages have no
    cycle. *)
Lemma recursive_dependencies_outcome_witness :
  PackageDescriptor_get_recursive_dependencies 0 Examples.selfish [Examples.selfish]
    None None None = Some (AssertionError, Examples.selfish_walker)
  ∧ acyclic_by Examples.walker Examples.rank
  ∧ ∃ N s w', ∀ fuel, (N ≤ fuel)%nat →
      PackageDescriptor_get_recursive_dependencies fuel Examples.pkg_A
        [Examples.pkg_A; Examples.pkg_B; Examples.pkg_C] None None None
      = Some (Ok s, w').
Proof.
  assert (acyclic_by Examples.walker Examples.rank) as Hrank.
  { apply ranked_acyclic. vm_compute. reflexivity. }
  split; [|split; [exact Hrank|]].
  - apply (proj1 (recursive_dependencies_outcome Examples.selfish [Examples.selfish]
                    None None None ltac:(discriminate))).
    apply get_dependencies_AssertionError. vm_compute. reflexivity.
  - apply (proj2 (proj2 (recursive_dependencies_outcome Examples.pkg_A
                    [Examples.pkg_A; Examples.pkg_B; Examples.pkg_C]
                    None None None ltac:(discriminate))) Examples.rank); [|exact Hrank].
    intros H. apply get_dependencies_AssertionError in H. vm_compute in H. discriminate H.
Defined.

End RecursiveDependenciesExamples.

(** ** The handler over a sequence of events *)

Section HandlerTraces.
Context {rt : Runtime}.
Variable SIGINT_RESULT : rc_value.

Lemma call_ended (self : ConsoleStartEndEventHandler) identifier rc now start :
  _start_times self !! identifier = Some start →
  ∃ line, __call__ SIGINT_RESULT self (JobEnded identifier rc) now = Returned [line] self
          ∧ flush line = true
          ∧ to_stderr line = failed SIGINT_RESULT (JobEnded identifier rc, now).
Proof.
  intros Hs. unfold __call__, failed, to_stderr. rewrite Hs. simpl.
  destruct (rc_truthy rc); simpl; [|by eexists].
  destruct (bool_decide (rc = SIGINT_RESULT)); by eexists.
Qed.

Lemma not_starts_cons (e : event_data * Time) events identifier :
  ¬ starts (e :: events) identifier ↔ e.1 ≠ JobStarted identifier ∧ ¬ starts events identifier.
Proof.
  unfold starts. destruct e as [d t]. simpl. split.
  - intros Hn. split.
    + intros ->. apply Hn. exists t. by left.
    + intros [t' Ht]. apply Hn. exists t'. by right.
  - intros [He Hn] [t' Ht]. apply elem_of_cons in Ht as [[= <- <-]|Ht]; [done|].
    apply Hn. by exists t'.
Qed.

(** X12: a sequence of events makes the handler raise [KeyError] exactly
    when it has an end event of a job that the handler has no start time
    for and that does not start earlier in the sequence. *)
Theorem calls_raise_iff (self : ConsoleStartEndEventHandler)
    (events : list (event_data * Time)) :
  calls SIGINT_RESULT self events = KeyError ↔
  ∃ before identifier rc now after,
    events = before ++ (JobEnded identifier rc, now) :: after
    ∧ _start_times self !! identifier = None
    ∧ ¬ starts before identifier.
Proof.
  revert self. induction events as [|[data now] events IH]; intros self.
  - simpl. split; [done|]. intros (before & ? & ? & ? & ? & Hev & _).
    by destruct before.
  - assert (∀ self', (data = OtherEvent ∨ ∃ id rc, data = JobEnded id rc) →
        self' = self →
        (calls SIGINT_RESULT self' events = KeyError ↔
         ∃ before identifier rc now0 after,
           (data, now) :: events = (data, now) :: before ++ (JobEnded identifier rc, now0) :: after
           ∧ _start_times self !! identifier = None
           ∧ ¬ starts ((data, now) :: before) identifier)) as Hkeep.
    { intros self' Hdata ->. rewrite IH. split.
      - intros (before & id & rc & now0 & after & -> & Hnone & Hns).
        exists before, id, rc, now0, after. split; [done|]. split; [done|].
        apply not_starts_cons. split; [|done]. simpl. destruct Hdata as [->|(? & ? & ->)]; done.
      - intros (before & id & rc & now0 & after & [= ->] & Hnone & Hns).
        exists before, id, rc, now0, after. split; [done|]. split; [done|].
        by apply not_starts_cons in Hns as [_ ?]. }
    destruct data as [id|id rc|]; simpl.
    + destruct (calls _ _ events) as [w s|] eqn:Hc.
      * split; [done|]. intros (before & id' & rc & now0 & after & Hev & Hnone & Hns).
        destruct before as [|e before]; [done|]. injection Hev as <- ->.
        apply not_starts_cons in Hns as [Hne Hns]. simpl in Hne.
        assert (calls SIGINT_RESULT {| _start_times := <[id:=now]> (_start_times self) |}
                  (before ++ (JobEnded id' rc, now0) :: after) = KeyError); [|congruence].
        apply IH. exists before, id', rc, now0, after. split; [done|]. split; [|done].
        simpl. rewrite lookup_insert_ne; [done|congruence].
      * split; [|done]. intros _. apply IH in Hc
          as (before & id' & rc & now0 & after & -> & Hnone & Hns).
        simpl in Hnone. apply lookup_insert_None in Hnone as [Hnone Hne].
        exists ((JobStarted id, now) :: before), id', rc, now0, after.
        split; [done|]. split; [done|]. apply not_starts_cons. split; [|done].
        simpl. congruence.
    + destruct (_start_times self !! id) as [start|] eqn:Hs.
      * destruct (call_ended self id rc now start Hs) as (line & Hcall & _).
        unfold __call__ in Hcall. rewrite Hs in Hcall. rewrite Hcall.
        specialize (Hkeep self (or_intror (ex_intro _ id (ex_intro _ rc eq_refl))) eq_refl).
        destruct (calls _ self events) as [w s|] eqn:Hc.
        -- split; [done|]. intros (before & id' & rc' & now0 & after & Hev & Hnone & Hns).
           destruct before as [|e before]; [simpl in Hev; simplify_eq; congruence|].
           assert (Returned w s = KeyError); [|done]. apply Hkeep.
           injection Hev as <- ->. by exists before, id', rc', now0, after.
        -- split; [|done]. intros _.
           destruct (proj1 Hkeep eq_refl) as (before & id' & rc' & now0 & after & ? & ? & ?).
           by exists ((JobEnded id rc, now) :: before), id', rc', now0, after.
      * split; [|done]. intros _. exists [], id, rc, now, events.
        split; [done|]. split; [done|]. intros [t Ht]. by apply elem_of_nil in Ht.
    + specialize (Hkeep self (or_introl eq_refl) eq_refl).
      destruct (calls _ self events) as [w s|] eqn:Hc.
      * split; [done|]. intros (before & id' & rc' & now0 & after & Hev & Hnone & Hns).
        destruct before as [|e before]; [done|].
        assert (Returned w s = KeyError); [|done]. apply Hkeep.
        injection Hev as <- ->. by exists before, id', rc', now0, after.
      * split; [|done]. intros _.
        destruct (proj1 Hkeep eq_refl) as (before & id' & rc' & now0 & after & ? & ? & ?).
        by exists ((OtherEvent, now) :: before), id', rc', now0, after.
Qed.

Lemma last_start_keep (e : event_data * Time) events
    (m m' : gmap string Time) identifier t :
  (∀ id, e.1 ≠ JobStarted id) →
  (m' !! identifier = Some t ↔
     (∃ before after, events = before ++ (JobStarted identifier, t) :: after
                      ∧ ¬ starts after identifier)
     ∨ (m !! identifier = Some t ∧ ¬ starts events identifier)) →
  (m' !! identifier = Some t ↔
     (∃ before after, e :: events = before ++ (JobStarted identifier, t) :: after
                      ∧ ¬ starts after identifier)
     ∨ (m !! identifier = Some t ∧ ¬ starts (e :: events) identifier)).
Proof.
  intros He ->. split.
  - intros [(before & after & -> & Hns)|[Hm Hns]].
    + left. by exists (e :: before), after.
    + right. split; [done|]. by apply not_starts_cons.
  - intros [(before & after & Hev & Hns)|[Hm Hns]].
    + destruct before as [|e' before].
      * injection Hev as -> _. by destruct (He identifier).
      * injection Hev as _ ->. left. by exists before, after.
    + right. split; [done|]. by apply not_starts_cons in Hns as [_ ?].
Qed.

(** X13: when a sequence of events is handled without an exception, one
    line is printed for every start and every end event and none for any
    other event, every line is flushed, as many lines go to the error
    stream as there are end events with a code that is neither a success
    nor the interruption code, and the handler ends with, for every job,
    the time of its last start event in the sequence, or the time it had
    before when the job does not start in the sequence: no start time is
    ever removed, not by the end of the job either. *)
Theorem calls_report (self self' : ConsoleStartEndEventHandler)
    (events : list (event_data * Time)) (written : list print_call) :
  calls SIGINT_RESULT self events = Returned written self' →
  length written = length (List.filter of_job events)
  ∧ Forall (λ p, flush p = true) written
  ∧ length (List.filter to_stderr written)
    = length (List.filter (failed SIGINT_RESULT) events)
  ∧ (∀ identifier t,
       _start_times self' !! identifier = Some t ↔
       (∃ before after, events = before ++ (JobStarted identifier, t) :: after
                        ∧ ¬ starts after identifier)
       ∨ (_start_times self !! identifier = Some t ∧ ¬ starts events identifier)).
Proof.
  revert self written. induction events as [|[data now] events IH]; intros self written.
  - simpl. intros [= <- <-]. split_and!; [done..|]. intros id t. split.
    + intros Ht. right. split; [done|]. intros [? Hin]. by apply elem_of_nil in Hin.
    + intros [(before & ? & ? & _)|[? _]]; [by destruct before|done].
  - destruct data as [id|id rc|].
    + simpl. destruct (calls _ _ events) as [w s|] eqn:Hc; [|done]. intros [= <- <-].
      destruct (IH _ _ Hc) as (Hlen & Hflush & Herr & Htimes). split_and!.
      * simpl. by rewrite Hlen.
      * by constructor.
      * done.
      * intros id' t. rewrite Htimes. simpl. split.
        -- intros [(before & after & -> & Hns)|[Hm Hns]].
           ++ left. by exists ((JobStarted id, now) :: before), after.
           ++ apply lookup_insert_Some in Hm as [[<- <-]|[Hne Hm]].
              ** left. by exists [], events.
              ** right. split; [done|]. apply not_starts_cons. split; [|done].
                 simpl. congruence.
        -- intros [(before & after & Hev & Hns)|[Hm Hns]].
           ++ destruct before as [|e' before].
              ** injection Hev as <- <- ->. right. split; [|done]. apply lookup_insert_eq.
              ** injection Hev as _ ->. left. by exists before, after.
           ++ apply not_starts_cons in Hns as [Hne Hns]. simpl in Hne. right.
              split; [|done]. rewrite lookup_insert_ne; [done|congruence].
    + change (calls SIGINT_RESULT self ((JobEnded id rc, now) :: events)) with
        (match __call__ SIGINT_RESULT self (JobEnded id rc) now with
         | KeyError => KeyError
         | Returned written0 self0 =>
             match calls SIGINT_RESULT self0 events with
             | KeyError => KeyError
             | Returned written' self1 => Returned (written0 ++ written') self1
             end
         end).
      destruct (_start_times self !! id) as [start|] eqn:Hs.
      * destruct (call_ended self id rc now start Hs) as (line & -> & Hfl & Hfile).
        destruct (calls _ self events) as [w s|] eqn:Hc; [|done]. intros [= <- <-].
        destruct (IH _ _ Hc) as (Hlen & Hflush & Herr & Htimes). split_and!.
        -- simpl. by rewrite Hlen.
        -- by constructor.
        -- simpl. rewrite Hfile.
           destruct (failed SIGINT_RESULT (JobEnded id rc, now)); simpl; by rewrite Herr.
        -- intros id' t. by apply last_start_keep.
      * unfold __call__. by rewrite Hs.
    + simpl. destruct (calls _ self events) as [w s|] eqn:Hc; [|done]. intros [= <- <-].
      destruct (IH _ _ Hc) as (Hlen & Hflush & Herr & Htimes). split_and!; [done..|].
      intros id' t. by apply last_start_keep.
Qed.

End HandlerTraces.

Section HandlerTraceExample.
#[local] Existing Instance Examples.simple_runtime.

(** [pkgX] starts at 1.00 s and ends twice: at 2.23 s with code 0 and at
    3.00 s with code 2. *)
Lemma calls_report_witness :
  ∃ written self',
    calls Examples.SIGINT handler_init
      [ (JobStarted "pkgX", 100%Z); (OtherEvent, 150%Z);
        (JobEnded "pkgX" (RcInt 0), 223%Z); (JobEnded "pkgX" (RcInt 2), 300%Z) ]
    = Returned written self'
    ∧ length written = 3
    ∧ length (List.filter to_stderr written) = 1
    ∧ _start_times self' !! "pkgX" = Some 100%Z.
Proof.
  assert (∃ written self',
    calls Examples.SIGINT handler_init
      [ (JobStarted "pkgX", 100%Z); (OtherEvent, 150%Z);
        (JobEnded "pkgX" (RcInt 0), 223%Z); (JobEnded "pkgX" (RcInt 2), 300%Z) ]
    = Returned written self') as (written & self' & Hcalls).
  { eexists _, _. vm_compute. reflexivity. }
  exists written, self'. split; [exact Hcalls|].
  destruct (calls_report Examples.SIGINT _ _ _ _ Hcalls) as (Hlen & _ & Herr & Htimes).
  split; [exact Hlen|]. split; [exact Herr|].
  apply Htimes. left. exists [], [ (OtherEvent, 150%Z);
        (JobEnded "pkgX" (RcInt 0), 223%Z); (JobEnded "pkgX" (RcInt 2), 300%Z) ].
  split; [reflexivity|]. intros [t Ht].
  rewrite !elem_of_cons, elem_of_nil in Ht. naive_solver.
Defined.

End HandlerTraceExample.

(** ** A descriptor as the constructor leaves it *)

Section Fresh.
Context {rt : Runtime}.

(** X14: a descriptor as the constructor leaves it has no dependencies,
    whatever categories are asked for, and asking never raises; it does
    not identify a package; two descriptors constructed from arguments
    with the same text are equal and hash alike; and a walker over
    descriptors that were only constructed knows no package name. *)
Theorem init_fresh (p : path_arg) :
  (∀ cs, (get_dependencies (__init__ p) cs).1 = Ok ∅)
  ∧ truthy (identifies_package (__init__ p)) = false
  ∧ (∀ q, py_str p = py_str q →
       __eq__ (__init__ p) (__init__ q) = true
       ∧ __hash__ (__init__ p) = __hash__ (__init__ q))
  ∧ (∀ ps cs n, ¬ known (walker_init (__init__ <$> ps) cs) n).
Proof.
  split_and!.
  - intros cs.
    destruct (get_dependencies (__init__ p) cs).1 as [r|] eqn:Hg.
    + f_equal. apply map_eq. intros n. rewrite lookup_empty.
      apply eq_None_not_Some. intros Hn.
      apply (get_dependencies_Ok_names _ _ _ Hg) in Hn as (e & c & s & _ & Hc & _).
      simpl in Hc. by rewrite lookup_empty in Hc.
    + apply get_dependencies_AssertionError in Hg as (n & e & Hn & _). done.
  - done.
  - intros q Hq. unfold __eq__, __hash__, __init__. simpl. rewrite Hq.
    by rewrite !bool_decide_eq_true_2.
  - intros ps cs n Hk. apply known_walker_init in Hk as (d & Hd & Hn).
    apply list_elem_of_fmap in Hd as (q & -> & _). done.
Qed.

End Fresh.

(** ** The walker: termination, closures and the cache *)

Section WalkerClaims.
Context {rt : Runtime}.

Lemma get_recursive_dependencies_cyclic (w : DependencyWalker) deps dep fuel s w' :
  walker_state w → dep ∈ deps → cyclic w (dep_name dep) →
  get_recursive_dependencies fuel w deps ≠ Some (Ok s, w').
Proof.
  intros Hw Hin Hcyc Hcall.
  apply get_recursive_dependencies_inv in Hcall as (c' & Hc' & ->).
  pose proof (union_of_closures_cyclic w _ deps (missing_cyclic w fuel) _ _ _
                (walker_state_cycle_free w Hw) Hc') as [_ Hpost].
  by apply (Hpost dep).
Qed.

Lemma get_recursive_dependencies_no_error (w : DependencyWalker) deps fuel w' :
  self_listingb w = false →
  get_recursive_dependencies fuel w deps ≠ Some (AssertionError, w').
Proof.
  intros Hself Hcall.
  apply get_recursive_dependencies_inv in Hcall as (c' & Hc' & ->).
  assert (¬ self_listing w) as Hns.
  { intros Hs. apply self_listingb_complete in Hs. congruence. }
  destruct (union_of_closures_no_error _ deps
              (λ key, missing_no_error w fuel key Hns) _ _ _ I Hc').
Qed.

Lemma get_recursive_dependencies_cyclic_diverges (w : DependencyWalker) deps dep :
  walker_state w → dep ∈ deps → cyclic w (dep_name dep) → self_listingb w = false →
  diverges (λ fuel, get_recursive_dependencies fuel w deps).
Proof.
  intros Hw Hin Hcyc Hself fuel.
  destruct (get_recursive_dependencies fuel w deps) as [[[s|] w']|] eqn:Hcall; [| |done].
  - by destruct (get_recursive_dependencies_cyclic w deps dep fuel s w').
  - by destruct (get_recursive_dependencies_no_error w deps fuel w').
Qed.

(** C1, as the code has it: where the dependencies between the known
    packages go down along some rank, so that there is no cycle,
    [get_recursive_dependencies] comes back with a set, the same from some
    nesting depth on, and the set holds every known name asked for and
    every name reached from one; where a dependency asked for lies on a
    cycle, no call returns a set, whatever the nesting depth allowed. *)
Theorem get_recursive_dependencies_terminates (w : DependencyWalker)
    (deps : list DependencyDescriptor) :
  walker_state w →
  (∀ rank, acyclic_by w rank →
     ∃ N s w',
       (∀ fuel, (N ≤ fuel)%nat →
          get_recursive_dependencies fuel w deps = Some (Ok s, w'))
       ∧ (∀ dep m, dep ∈ deps → known w (dep_name dep) →
                   reaches w (dep_name dep) m → is_Some (s !! m)))
  ∧ (∀ dep, dep ∈ deps → cyclic w (dep_name dep) →
       ∀ fuel s w', get_recursive_dependencies fuel w deps ≠ Some (Ok s, w')).
Proof.
  intros Hw. split.
  - intros rank Hrank.
    destruct (get_recursive_dependencies_returns w rank deps Hw Hrank)
      as (N & s & w' & Hcall).
    exists N, s, w'. split; [exact Hcall|]. intros dep m Hin Hk Hr.
    apply (get_recursive_dependencies_union_closure w N deps s w' Hw (Hcall N (le_n N))).
    by exists dep.
  - intros dep Hin Hcyc fuel s w'. by eapply get_recursive_dependencies_cyclic.
Qed.


(** C5: after a call for one dependency has returned a set, the set is
    the cache entry under the dependency's name; a second call for that
    name, with the same or another descriptor of the name, returns the
    same set and is answered from the entry (also when no nesting depth is
    left for [__missing__], which is then not entered) and leaves the
    walker as it is; and the entry stays, unchanged, through any later
    call on the walker. *)
Theorem get_recursive_dependencies_twice (w : DependencyWalker) fuel dep s w1 :
  get_recursive_dependencies fuel w [dep] = Some (Ok s, w1) →
  dependency_cache w1 !! dep_name dep = Some s
  ∧ (∀ dep' fuel', dep_name dep' = dep_name dep →
       get_recursive_dependencies fuel' w1 [dep'] = Some (Ok s, w1))
  ∧ (∀ fuel2 deps2 r2 w2,
       get_recursive_dependencies fuel2 w1 deps2 = Some (r2, w2) →
       dependency_cache w2 !! dep_name dep = Some s
       ∧ ∀ dep' fuel', dep_name dep' = dep_name dep →
           get_recursive_dependencies fuel' w2 [dep'] = Some (Ok s, w2)).
Proof.
  intros Hcall. apply get_recursive_dependencies_caches in Hcall. split_and!.
  - exact Hcall.
  - intros dep' fuel' Hn. apply get_recursive_dependencies_cached. by rewrite Hn.
  - intros fuel2 deps2 r2 w2 Hcall2.
    assert (dependency_cache w2 !! dep_name dep = Some s) as Hs2.
    { eapply lookup_weaken; [done|]. by eapply get_recursive_dependencies_extends. }
    split; [exact Hs2|]. intros dep' fuel' Hn.
    apply get_recursive_dependencies_cached. by rewrite Hn.
Qed.

End WalkerClaims.

Section WalkerClaimExamples.
#[local] Existing Instance Examples.simple_runtime.

(** C1 as stated fails: [cyc_A] lists [B] and [cyc_B] lists [A]; a call
    for [A] on the walker over the two does not come back within any
    nesting depth. *)
Lemma get_recursive_dependencies_cycle_diverges :
  (get_dependencies Examples.cyc_A None).1 = Ok {[ "B" := ∅ ]}
  ∧ (get_dependencies Examples.cyc_B None).1 = Ok {[ "A" := ∅ ]}
  ∧ diverges (λ fuel, get_recursive_dependencies fuel
                        (walker_init [Examples.cyc_A; Examples.cyc_B] None)
                        [Examples.dep "A"]).
Proof.
  split; [by vm_compute|]. split; [by vm_compute|].
  assert (edge Examples.cyclic_walker "A" "B") as HAB.
  { split; [|by eexists]. exists [Examples.cyc_A], Examples.cyc_A, bare.
    split; [by vm_compute|]. split; [by left|].
    exists "run", {[ "B" := bare ]}. split; [by eexists|]. split; by vm_compute. }
  assert (edge Examples.cyclic_walker "B" "A") as HBA.
  { split; [|by eexists]. exists [Examples.cyc_B], Examples.cyc_B, bare.
    split; [by vm_compute|]. split; [by left|].
    exists "run", {[ "A" := bare ]}. split; [by eexists|]. split; by vm_compute. }
  apply (get_recursive_dependencies_cyclic_diverges Examples.cyclic_walker
           [Examples.dep "A"] (Examples.dep "A")).
  - apply ws_init.
  - by left.
  - eapply tc_l; [exact HAB|]. by apply tc_once.
  - by vm_compute.
Qed.

(** [pkg_A], [pkg_B] and [pkg_C] have no cycle: a call for [A] and [ext]
    returns [A], [B] and [C]. *)
Lemma get_recursive_dependencies_terminates_witness :
  walker_state Examples.walker
  ∧ acyclic_by Examples.walker Examples.rank
  ∧ ∃ N s w',
      (∀ fuel, (N ≤ fuel)%nat →
         get_recursive_dependencies fuel Examples.walker
           [Examples.dep "A"; Examples.dep "ext"] = Some (Ok s, w'))
      ∧ (∀ dep m, dep ∈ [Examples.dep "A"; Examples.dep "ext"] →
                  known Examples.walker (dep_name dep) →
                  reaches Examples.walker (dep_name dep) m → is_Some (s !! m)).
Proof.
  assert (acyclic_by Examples.walker Examples.rank) as Hrank.
  { apply ranked_acyclic. vm_compute. reflexivity. }
  split; [constructor|]. split; [exact Hrank|].
  apply (proj1 (get_recursive_dependencies_terminates Examples.walker
                  [Examples.dep "A"; Examples.dep "ext"] (ws_init _ _)) Examples.rank Hrank).
Defined.


(** A second call for [A], with a versioned descriptor and no nesting
    depth, after a first call for [A]. *)
Lemma get_recursive_dependencies_twice_witness :
  ∃ s w1, get_recursive_dependencies 4 Examples.walker [Examples.dep "A"] = Some (Ok s, w1)
    ∧ dependency_cache w1 !! "A" = Some s
    ∧ get_recursive_dependencies 0 w1 [Examples.versioned "A" "1"] = Some (Ok s, w1).
Proof.
  assert (∃ s w1, get_recursive_dependencies 4 Examples.walker [Examples.dep "A"]
                  = Some (Ok s, w1)) as (s & w1 & Hcall).
  { eexists _, _. vm_compute. reflexivity. }
  exists s, w1. split; [exact Hcall|].
  destruct (get_recursive_dependencies_twice _ _ _ _ _ Hcall) as (Hc & Hsame & _).
  split; [exact Hc|]. by apply Hsame.
Defined.

End WalkerClaimExamples.
